(** * Laplace-Beltrami spectrum of a triangle mesh (mindboggle, [lbo.py])

    A shallow embedding of [mindboggle/shapes/laplace_beltrami/lbo.py]:
    the stiffness assembler [gen_V], the Heron-formula [area], the mass
    builders [masses], [gen_P], [gen_Q] and the two portal functions
    [geometric_laplacian] and [fem_laplacian].

    - Scalars are kept abstract behind the class [Scalar]; two instances are
      given: IEEE binary64 ([PrimFloat], what numpy computes with) and the
      real numbers (exact arithmetic, for the algebraic identities).
    - A scipy [lil_matrix] is a shape together with a finite map from index
      pairs to the stored entries; an index pair that is not stored reads 0.
    - A Python exception ([IndexError], [KeyError], [ValueError], a solver
      failure) is the [None] of the option monad.
    - The mesh utilities, the cotangent kernel and the ARPACK solver are not
      part of this module; they are parameters of the portal functions. *)

From Stdlib Require Import ZArith Reals Lra Lia List String.
From Stdlib Require Import Floats.PrimFloat.
From Stdlib Require Floats.FloatAxioms.
From Stdlib Require Numbers.Cyclic.Int63.Uint63.
From stdpp Require Import base option list gmap.

(** ** Scalars *)

Class Scalar (F : Type) := {
  fzero : F;                (* the entry read at an unstored position *)
  of_int : Z → F;           (* a Python int used in float arithmetic *)
  fadd : F → F → F;
  fsub : F → F → F;
  fmul : F → F → F;
  fdiv : F → F → F;
  fsqrt : F → F
}.

(** IEEE-754 binary64, as numpy's float64. *)
Definition float_of_Z (z : Z) : float :=
  match z with
  | Z0 => 0%float
  | Zpos _ => PrimFloat.of_uint63 (Uint63.of_Z z)
  | Zneg p => PrimFloat.opp (PrimFloat.of_uint63 (Uint63.of_Z (Zpos p)))
  end.

#[export] Instance float_scalar : Scalar float := {|
  fzero := 0%float;
  of_int := float_of_Z;
  fadd := PrimFloat.add;
  fsub := PrimFloat.sub;
  fmul := PrimFloat.mul;
  fdiv := PrimFloat.div;
  fsqrt := PrimFloat.sqrt
|}.

(** Exact real arithmetic. *)
#[export] Instance real_scalar : Scalar R := {|
  fzero := 0%R;
  of_int := IZR;
  fadd := Rplus;
  fsub := Rminus;
  fmul := Rmult;
  fdiv := Rdiv;
  fsqrt := R_sqrt.sqrt
|}.

(** ** Mesh data *)

(** A row of [Nodes]: three coordinates.  A row of [Faces]: three indices. *)
Abbreviation point F := (F * F * F)%type (only parsing).
Abbreviation face := (nat * nat * nat)%type (only parsing).
Abbreviation edge := (nat * nat)%type (only parsing).

Section Lbo.
Context {F : Type} `{Scalar F}.

(** Python's builtin [sum]: starts from the int 0 and adds from the left. *)
Definition pysum (l : list F) : F := foldl fadd (of_int 0) l.

(** ** Sparse matrices ([scipy.sparse.lil_matrix]) *)

Record spmatrix := SpMatrix {
  sp_shape : nat * nat;
  sp_data : gmap (nat * nat) F
}.

(** [lil_matrix((r, c))]: nothing stored. *)
Definition lil_matrix (shape : nat * nat) : spmatrix := SpMatrix shape ∅.

(** The mathematical entry: an unstored position is zero. *)
Definition sp_entry (M : spmatrix) (i j : nat) : F :=
  default fzero (sp_data M !! (i, j)).

Definition in_shape (M : spmatrix) (i j : nat) : bool :=
  (i <? (sp_shape M).1) && (j <? (sp_shape M).2).

(** [M[i,j]]: [IndexError] out of range. *)
Definition sp_get (M : spmatrix) (i j : nat) : option F :=
  if in_shape M i j then Some (sp_entry M i j) else None.

(** [M[i,j] = x]: [IndexError] out of range. *)
Definition sp_set (M : spmatrix) (i j : nat) (x : F) : option spmatrix :=
  if in_shape M i j
  then Some (SpMatrix (sp_shape M) (<[(i, j) := x]> (sp_data M)))
  else None.

(** [M.setdiag(values)]: [M[k,k] = values[k]] for each [k] on the diagonal;
    values past the end of the diagonal are ignored. *)
Fixpoint setdiag_from (k : nat) (values : list F)
    (d : gmap (nat * nat) F) : gmap (nat * nat) F :=
  match values with
  | [] => d
  | v :: vs => setdiag_from (S k) vs (<[(k, k) := v]> d)
  end.

Definition setdiag (M : spmatrix) (values : list F) : spmatrix :=
  let n := Nat.min (sp_shape M).1 (sp_shape M).2 in
  SpMatrix (sp_shape M) (setdiag_from 0 (take n values) (sp_data M)).

(** [M / c] and [M /= c]: every stored entry is divided. *)
Definition sp_div (M : spmatrix) (c : F) : spmatrix :=
  SpMatrix (sp_shape M) ((λ x, fdiv x c) <$> sp_data M).

(** Entrywise binary operation of two sparse matrices: computed on the
    union of the stored positions, a missing operand reading zero. *)
Definition sp_binop (op : F → F → F) (a b : option F) : option F :=
  match a, b with
  | None, None => None
  | _, _ => Some (op (default fzero a) (default fzero b))
  end.

Definition shape_eqb (s t : nat * nat) : bool :=
  (s.1 =? t.1) && (s.2 =? t.2).

(** [A - B] and [A + B]: [ValueError] when the shapes differ. *)
Definition sp_sub (A B : spmatrix) : option spmatrix :=
  if shape_eqb (sp_shape A) (sp_shape B)
  then Some (SpMatrix (sp_shape A)
               (merge (sp_binop fsub) (sp_data A) (sp_data B)))
  else None.

Definition sp_add (A B : spmatrix) : option spmatrix :=
  if shape_eqb (sp_shape A) (sp_shape B)
  then Some (SpMatrix (sp_shape A)
               (merge (sp_binop fadd) (sp_data A) (sp_data B)))
  else None.

(** [M.toarray()]: the dense rows. *)
Definition toarray (M : spmatrix) : list (list F) :=
  map (λ i, map (λ j, sp_entry M i j) (seq 0 (sp_shape M).2))
      (seq 0 (sp_shape M).1).

(** [M[i][j]] on a dense array: [IndexError] out of range. *)
Definition dense_get (M : list (list F)) (i j : nat) : option F :=
  row ← M !! i; row !! j.

(** ** Row sums

    The comprehension shared by [gen_V], [masses] and [gen_Q]:
    [[sum([X(i,j) for j in Index[i]]) for i in range(n)]].  [Index[i]]
    raises past the end of [Index], and so may the read [X(i,j)]. *)
Definition row_sums (X : nat → nat → option F) (Index : list (list nat))
    (n : nat) : option (list F) :=
  mapM (λ i, Ii ← Index !! i;
             xs ← mapM (X i) Ii;
             Some (pysum xs))
       (seq 0 n).

(** ** [gen_V] *)

Definition gen_V (Meshes : list face) (W : spmatrix)
    (Neighbor : list (list nat)) : option spmatrix :=
  let num_nodes := (sp_shape W).1 in
  let V := lil_matrix (num_nodes, num_nodes) in
  v ← row_sums (λ i j, sp_get W i j) Neighbor num_nodes;
  Some (sp_div (setdiag V v) (of_int 3)).

(** ** [area] *)

Definition vsub (p q : point F) : point F :=
  (fsub p.1.1 q.1.1, fsub p.1.2 q.1.2, fsub p.2 q.2).

(** [np.linalg.norm] of a 3-vector. *)
Definition norm (p : point F) : F :=
  fsqrt (fadd (fadd (fmul p.1.1 p.1.1) (fmul p.1.2 p.1.2)) (fmul p.2 p.2)).

(** The three edge lengths [a], [b], [c] of the loop body. *)
Definition side_lengths (p0 p1 p2 : point F) : F * F * F :=
  (norm (vsub p0 p1), norm (vsub p1 p2), norm (vsub p2 p0)).

(** [s*(s-a)*(s-b)*(s-c)] with [s = (a+b+c)/2.0]. *)
Definition heron_radicand (a b c : F) : F :=
  let s := fdiv (fadd (fadd a b) c) (of_int 2) in
  fmul (fmul (fmul s (fsub s a)) (fsub s b)) (fsub s c).

(** The arithmetic of one iteration of the loop of [area]. *)
Definition heron (p0 p1 p2 : point F) : F :=
  let '(a, b, c) := side_lengths p0 p1 p2 in
  fsqrt (heron_radicand a b c).

(** One iteration of the loop of [area]; [Nodes[k]] raises out of range. *)
Definition triangle_area (Nodes : list (point F)) (Triangle : face)
    : option F :=
  p0 ← Nodes !! Triangle.1.1;
  p1 ← Nodes !! Triangle.1.2;
  p2 ← Nodes !! Triangle.2;
  Some (heron p0 p1 p2).

Definition area (Nodes : list (point F)) (Meshes : list face)
    : option (list F) :=
  mapM (triangle_area Nodes) Meshes.

(** ** [geometric_laplacian.masses] *)

Definition masses (Nodes : list (point F)) (Areas : list F)
    (Faces_at_Nodes : list (list nat)) : option spmatrix :=
  let num_nodes := length Nodes in
  d ← row_sums (λ _ j, Areas !! j) Faces_at_Nodes num_nodes;
  let D := lil_matrix (num_nodes, num_nodes) in
  Some (sp_div (setdiag D d) (of_int 3)).

(** ** [fem_laplacian.gen_P] and [fem_laplacian.gen_Q] *)

(** The loop [for [i,j] in edges: P[i,j] = sum([Area[face] for face in
    faces_at_edges[(i,j)]])]: [KeyError] for an edge that is not a key,
    [IndexError] for a face or an index pair out of range. *)
Fixpoint gen_P_loop (edges : list edge)
    (faces_at_edges : gmap edge (list nat)) (Area : list F)
    (P : spmatrix) : option spmatrix :=
  match edges with
  | [] => Some P
  | (i, j) :: rest =>
      fs ← faces_at_edges !! (i, j);
      xs ← mapM (λ face, Area !! face) fs;
      P' ← sp_set P i j (pysum xs);
      gen_P_loop rest faces_at_edges Area P'
  end.

Definition gen_P (edges : list edge) (faces_at_edges : gmap edge (list nat))
    (Area : list F) (num_nodes : nat) : option spmatrix :=
  P ← gen_P_loop edges faces_at_edges Area
        (lil_matrix (num_nodes, num_nodes));
  Some (sp_div P (of_int 12)).

Definition gen_Q (edges : list edge) (faces_at_edges : gmap edge (list nat))
    (Area : list F) (num_nodes : nat) (Neighbor : list (list nat))
    (Faces_at_Nodes : list (list nat)) : option spmatrix :=
  let Q := lil_matrix (num_nodes, num_nodes) in
  q ← row_sums (λ _ k, Area !! k) Faces_at_Nodes num_nodes;
  Some (sp_div (setdiag Q q) (of_int 6)).

(** ** The formulas of the specification

    Entry by entry, as the specification words them; the theorems below
    compare the assembled matrices with these. *)

(** Sum of [X[f]] over the index list [fs]. *)
Definition sum_over (X : nat → F) (fs : list nat) : F := pysum (map X fs).

Definition area_at (Area : list F) (f : nat) : F := default fzero (Area !! f).

(** [V[i] = (1/3) * sum over j in Neighbor(i) of W[i,j]]. *)
Definition spec_V (W : spmatrix) (Neighbor : list (list nat)) (i : nat) : F :=
  fdiv (sum_over (sp_entry W i) (default [] (Neighbor !! i))) (of_int 3).

(** [A = diag(V) - W]. *)
Definition spec_A (W : spmatrix) (Neighbor : list (list nat)) (i j : nat)
    : F :=
  fsub (if decide (i = j) then spec_V W Neighbor i else fzero)
       (sp_entry W i j).

(** [D[i] = (sum of Area[f] for f in FacesAtVertex[i]) / 3], diagonal. *)
Definition spec_D (Area : list F) (Faces_at_Nodes : list (list nat))
    (i j : nat) : F :=
  if decide (i = j)
  then fdiv (sum_over (area_at Area) (default [] (Faces_at_Nodes !! i)))
            (of_int 3)
  else fzero.

(** [P[i,j] = (sum of Area[f] for f in FacesAtEdge[(i,j)]) / 12] for each
    edge [(i,j)] in the edge list, zero elsewhere. *)
Definition spec_P (edges : list edge) (faces_at_edges : gmap edge (list nat))
    (Area : list F) (i j : nat) : F :=
  if decide ((i, j) ∈ edges)
  then fdiv (sum_over (area_at Area) (default [] (faces_at_edges !! (i, j))))
            (of_int 12)
  else fzero.

(** [Q[i] = (sum of Area[f] for f in FacesAtVertex[i]) / 6], diagonal. *)
Definition spec_Q (Area : list F) (Faces_at_Nodes : list (list nat))
    (i j : nat) : F :=
  if decide (i = j)
  then fdiv (sum_over (area_at Area) (default [] (Faces_at_Nodes !! i)))
            (of_int 6)
  else fzero.

(** ** The portal functions *)

(** What the solver is handed: a sparse matrix or a dense array. *)
Inductive operand :=
  | Sparse (M : spmatrix)
  | Dense (M : list (list F)).

Section Portal.

(** The eigenvalue type of the solver (complex128) and numpy's [1/x] on it. *)
Variable C : Type.
Variable reciprocal : C → C.

(** [mindboggle.utils.kernels.cotangent_kernel], the four functions of
    [mindboggle.utils.mesh] and [scipy.sparse.linalg.eigs]; each may raise.
    [eigs] returns the eigenvalues and the eigenvectors. *)
Variable cotangent_kernel : list (point F) → list face → option spmatrix.
Variable find_neighbors : list face → nat → option (list (list nat)).
Variable find_faces_at_vertices : list face → nat → option (list (list nat)).
Variable find_faces_at_edges : list face → option (gmap edge (list nat)).
Variable find_edges : list face → option (list edge).
Variable eigs : operand → nat → operand → option (list C * list (list C)).

(** The returned array: [numpy.array([-1,-1,-1,-1,-1])] is an integer
    array, the spectrum an array of the solver's eigenvalue type. *)
Inductive ndarray :=
  | IntArray (l : list Z)
  | EigArray (l : list C).

(** What a call does: the lines printed, and the array returned ([None]
    when an exception leaves the function). *)
Definition outcome : Type := list string * option ndarray.

Definition too_small : string := "The input size is too small. Skipped.".

Definition geometric_laplacian (Nodes : list (point F)) (Faces : list face)
    : outcome :=
  let num_nodes := length Nodes in
  if num_nodes <? 5 then
    ([too_small], Some (IntArray [-1; -1; -1; -1; -1]%Z))
  else
    ([],
     W ← cotangent_kernel Nodes Faces;
     let W := sp_div W (of_int 2) in
     Neighbor ← find_neighbors Faces num_nodes;
     V ← gen_V Faces W Neighbor;
     A ← sp_sub V W;
     Area ← area Nodes Faces;
     Faces_at_Nodes ← find_faces_at_vertices Faces num_nodes;
     D ← masses Nodes Area Faces_at_Nodes;
     let D := toarray D in
     '(eigenvalues, eigenvectors) ← eigs (Sparse A) 3 (Dense D);
     let eigenvalues := map reciprocal eigenvalues in
     Some (EigArray eigenvalues)).

Definition fem_laplacian (Nodes : list (point F)) (Faces : list face)
    : outcome :=
  let num_nodes := length Nodes in
  if num_nodes <? 5 then
    ([too_small], Some (IntArray [-1; -1; -1; -1; -1]%Z))
  else
    ([],
     W ← cotangent_kernel Nodes Faces;
     let W := sp_div W (of_int 2) in
     Neighbor ← find_neighbors Faces num_nodes;
     V ← gen_V Faces W Neighbor;
     A ← sp_sub V W;
     Area ← area Nodes Faces;
     Faces_at_Nodes ← find_faces_at_vertices Faces num_nodes;
     faces_at_edges ← find_faces_at_edges Faces;
     edges ← find_edges Faces;
     P ← gen_P edges faces_at_edges Area num_nodes;
     Q ← gen_Q edges faces_at_edges Area num_nodes Neighbor Faces_at_Nodes;
     B ← sp_add P Q;
     let B := toarray B in
     let A := toarray A in
     '(eigenvalues, eigenvectors) ← eigs (Dense A) 3 (Dense B);
     let eigenvalues := map reciprocal eigenvalues in
     Some (EigArray eigenvalues)).

(** ** The stages of the portal functions

    Both portal functions run the same statements up to
    [find_faces_at_vertices]: the kernel halved, the neighbours, [gen_V], the
    stiffness matrix [A = V - W], the areas and the faces at each node.
    [precomputation] is that common prefix; [geometric_operands] and
    [fem_operands] continue it up to the two arguments of [eigs]; [solve] is
    the call of [eigs] with [k=3] followed by [1/eigenvalues]. *)
Definition precomputation (Nodes : list (point F)) (Faces : list face)
    : option (spmatrix * list (list nat) * list F * list (list nat)) :=
  let num_nodes := length Nodes in
  W ← cotangent_kernel Nodes Faces;
  let W := sp_div W (of_int 2) in
  Neighbor ← find_neighbors Faces num_nodes;
  V ← gen_V Faces W Neighbor;
  A ← sp_sub V W;
  Area ← area Nodes Faces;
  Faces_at_Nodes ← find_faces_at_vertices Faces num_nodes;
  Some (A, Neighbor, Area, Faces_at_Nodes).

Definition geometric_operands (Nodes : list (point F)) (Faces : list face)
    : option (operand * operand) :=
  '(A, _, Area, Faces_at_Nodes) ← precomputation Nodes Faces;
  D ← masses Nodes Area Faces_at_Nodes;
  Some (Sparse A, Dense (toarray D)).

Definition fem_operands (Nodes : list (point F)) (Faces : list face)
    : option (operand * operand) :=
  let num_nodes := length Nodes in
  '(A, Neighbor, Area, Faces_at_Nodes) ← precomputation Nodes Faces;
  faces_at_edges ← find_faces_at_edges Faces;
  edges ← find_edges Faces;
  P ← gen_P edges faces_at_edges Area num_nodes;
  Q ← gen_Q edges faces_at_edges Area num_nodes Neighbor Faces_at_Nodes;
  B ← sp_add P Q;
  Some (Dense (toarray A), Dense (toarray B)).

Definition solve (operands : option (operand * operand)) : option ndarray :=
  '(A, M) ← operands;
  '(eigenvalues, eigenvectors) ← eigs A 3 M;
  Some (EigArray (map reciprocal eigenvalues)).

(** The values of one run of the common prefix on a mesh: the kernel's
    matrix [W], the neighbour lists, the diagonal matrix [V], the stiffness
    matrix [A], the areas and the faces at each node. *)
Record prefix_run (Nodes : list (point F)) (Faces : list face)
    (W : spmatrix) (Nb FaN : list (list nat)) (V A : spmatrix)
    (Area : list F) : Prop := {
  run_kernel : cotangent_kernel Nodes Faces = Some W;
  run_neighbors : find_neighbors Faces (length Nodes) = Some Nb;
  run_gen_V : gen_V Faces (sp_div W (of_int 2)) Nb = Some V;
  run_stiffness : sp_sub V (sp_div W (of_int 2)) = Some A;
  run_area : area Nodes Faces = Some Area;
  run_faces_at_nodes :
    find_faces_at_vertices Faces (length Nodes) = Some FaN
}.

(** ** Contracts of the collaborators

    What the portal functions need from a mesh and from the mesh utilities
    so that no index is out of range: face indices below the number of
    nodes, a square weight matrix, one neighbour list and one face list per
    node, and every listed edge a key of the faces-at-edges dictionary. *)
Definition valid_mesh (Nodes : list (point F)) (Faces : list face) : Prop :=
  let n := length Nodes in
  Forall (λ t : face, t.1.1 < n ∧ t.1.2 < n ∧ t.2 < n) Faces ∧
  (∃ W, cotangent_kernel Nodes Faces = Some W ∧ sp_shape W = (n, n)) ∧
  (∃ Nb, find_neighbors Faces n = Some Nb ∧ length Nb = n ∧
         Forall (Forall (λ j, j < n)) Nb) ∧
  (∃ FaN, find_faces_at_vertices Faces n = Some FaN ∧ length FaN = n ∧
          Forall (Forall (λ f, f < length Faces)) FaN).

Definition valid_edges (Nodes : list (point F)) (Faces : list face) : Prop :=
  let n := length Nodes in
  ∃ fae es, find_faces_at_edges Faces = Some fae ∧
            find_edges Faces = Some es ∧
            Forall (λ e : edge, e.1 < n ∧ e.2 < n ∧
                      ∃ fs, fae !! e = Some fs ∧
                            Forall (λ f, f < length Faces) fs) es.

End Portal.
End Lbo.

Arguments spmatrix F : clear implicits.
Arguments operand F : clear implicits.
Arguments ndarray C : clear implicits.
Arguments IntArray {C} l.
Arguments EigArray {C} l.

(** ** Agreement of two runs

    Two eigenvalue arrays agree up to [close] when one is a rearrangement of
    an array that is entrywise [close] to the other: the solver gives no
    order, and its values are reproducible up to a tolerance only. *)
Definition agree {C : Type} (close : C → C → Prop) (l1 l2 : list C) : Prop :=
  ∃ l, l1 ≡ₚ l ∧ Forall2 close l l2.

Definition same_array {C : Type} (close : C → C → Prop) (a b : ndarray C)
    : Prop :=
  match a, b with
  | IntArray x, IntArray y => x = y
  | EigArray x, EigArray y => agree close x y
  | _, _ => False
  end.

Definition same_outcome {C : Type} (close : C → C → Prop)
    (o1 o2 : outcome C) : Prop :=
  o1.1 = o2.1 ∧ option_Forall2 (same_array close) o1.2 o2.2.

(** [scipy.sparse.linalg.eigs] starts ARPACK from a random vector when it is
    given no [v0], and the module gives none: what the solver answers on one
    problem may differ from one invocation to the next.  Two answers agree
    when both are failures, or both are results whose eigenvalues, after
    the [1/x] of the portal functions, agree up to [close]. *)
Definition same_answer {C : Type} (close : C → C → Prop) (reciprocal : C → C)
    (r1 r2 : option (list C * list (list C))) : Prop :=
  option_Forall2
    (λ a b, agree close (map reciprocal a.1) (map reciprocal b.1)) r1 r2.

(** ** Rigid motions of real coordinates *)

(** A 3-by-3 real matrix, by rows, applied to a point. *)
Definition dot (u v : point R) : R :=
  (u.1.1 * v.1.1 + u.1.2 * v.1.2 + u.2 * v.2)%R.

Definition apply_matrix (M : point R * point R * point R) (p : point R)
    : point R :=
  (dot M.1.1 p, dot M.1.2 p, dot M.2 p).

Definition column (M : point R * point R * point R) (k : nat) : point R :=
  match k with
  | 0 => (M.1.1.1.1, M.1.2.1.1, M.2.1.1)
  | 1 => (M.1.1.1.2, M.1.2.1.2, M.2.1.2)
  | _ => (M.1.1.2, M.1.2.2, M.2.2)
  end.

Definition determinant (M : point R * point R * point R) : R :=
  let '((a, b, c), (d, e, f), (g, h, i)) := M in
  (a * (e * i - f * h) - b * (d * i - f * g) + c * (d * h - e * g))%R.

(** A rotation: orthonormal columns and determinant one. *)
Definition rotation (M : point R * point R * point R) : Prop :=
  dot (column M 0) (column M 0) = 1%R ∧
  dot (column M 1) (column M 1) = 1%R ∧
  dot (column M 2) (column M 2) = 1%R ∧
  dot (column M 0) (column M 1) = 0%R ∧
  dot (column M 0) (column M 2) = 0%R ∧
  dot (column M 1) (column M 2) = 0%R ∧
  determinant M = 1%R.

(** The rigid motion [p ↦ M p + t]. *)
Definition rigid (M : point R * point R * point R) (t p : point R)
    : point R :=
  let q := apply_matrix M p in
  (q.1.1 + t.1.1, q.1.2 + t.1.2, q.2 + t.2)%R.

(** ** Edge vectors of real triangles *)

(** The cross product, and the multiplication of a point by a factor. *)
Definition cross (u v : point R) : point R :=
  (u.1.2 * v.2 - u.2 * v.1.2,
   u.2 * v.1.1 - u.1.1 * v.2,
   u.1.1 * v.1.2 - u.1.2 * v.1.1)%R.

Definition scale (k : R) (p : point R) : point R :=
  (k * p.1.1, k * p.1.2, k * p.2)%R.

(** * A sample mesh and sample collaborators

    The mesh of the module's [__main__] block, in binary64, together with
    small stand-ins for the collaborators, used to run the portal functions
    on concrete data. *)

Module Sample.

Definition nodes : list (point float) :=
  [(0, 0, 0); (1, 0, 0); (0, 0, 1); (0, 1, 1);
   (1, 0, 1); (0, 1, 0); (1, 1, 1); (1, 1, 0)]%float.

Definition faces : list face :=
  [(0, 2, 4); (0, 1, 4); (2, 3, 4); (3, 4, 5); (3, 5, 6); (0, 1, 7)].

(** The same mesh with real coordinates. *)
Definition real_nodes : list (point R) :=
  [(0, 0, 0); (1, 0, 0); (0, 0, 1); (0, 1, 1);
   (1, 0, 1); (0, 1, 0); (1, 1, 1); (1, 1, 0)]%R.

(** A five-node mesh whose first face has its three nodes on one line: the
    doubles nearest 0.2 and 0.9 on the x axis, and the origin. *)
Definition collinear_nodes : list (point float) :=
  [(0, 0, 0); (0x1.999999999999ap-3, 0, 0); (0x1.ccccccccccccdp-1, 0, 0);
   (0, 1, 0); (0, 0, 1)]%float.
Definition collinear_faces : list face := [(0, 1, 2); (0, 3, 4); (1, 3, 4)].

(** A quarter turn about the z axis, and a translation. *)
Definition quarter_turn : point R * point R * point R :=
  ((0, -1, 0), (1, 0, 0), (0, 0, 1))%R.
Definition shift : point R := (1, 2, 3)%R.

(** A mesh below the size guard. *)
Definition small_nodes : list (point float) :=
  [(0, 0, 0); (1, 0, 0); (0, 1, 0); (0, 0, 1)]%float.
Definition small_faces : list face := [(0, 1, 2); (0, 1, 3)].

(** The three sides of a face, each in one orientation. *)
Definition face_edges (t : face) : list edge :=
  [(t.1.1, t.1.2); (t.1.2, t.2); (t.1.1, t.2)].

(** Every side once, in the orientation of its first occurrence. *)
Definition find_edges (Faces : list face) : option (list edge) :=
  Some (remove_dups (concat (map face_edges Faces))).

(** Both orientations of every side are keys. *)
Definition find_faces_at_edges (Faces : list face)
    : option (gmap edge (list nat)) :=
  Some (foldl (λ d '(k, t),
           foldl (λ d '(i, j),
                    let d := <[(i, j) := default [] (d !! (i, j)) ++ [k]]> d in
                    <[(j, i) := default [] (d !! (j, i)) ++ [k]]> d)
                 d (face_edges t))
         ∅ (imap (λ k t, (k, t)) Faces)).

Definition find_neighbors (Faces : list face) (n : nat)
    : option (list (list nat)) :=
  Some (map (λ i, remove_dups
                    (concat (map (λ '(a, b),
                                    if decide (a = i) then [b]
                                    else if decide (b = i) then [a] else [])
                                 (concat (map face_edges Faces)))))
            (seq 0 n)).

Definition find_faces_at_vertices (Faces : list face) (n : nat)
    : option (list (list nat)) :=
  Some (map (λ i, concat (imap (λ k (t : face),
                             if decide (t.1.1 = i ∨ t.1.2 = i ∨ t.2 = i)
                             then [k] else []) Faces))
            (seq 0 n)).

(** A kernel that weighs every side of every face by one, symmetrically. *)
Definition unit_kernel {F : Type} `{Scalar F} (Nodes : list (point F))
    (Faces : list face) : option (spmatrix F) :=
  Some (SpMatrix (length Nodes, length Nodes)
          (foldl (λ d '(i, j), <[(j, i) := of_int 1]> (<[(i, j) := of_int 1]> d))
                 ∅ (concat (map face_edges Faces)))).

(** The same kernel with the weight [w] in place of one. *)
Definition weighted_kernel {F : Type} (w : F) (Nodes : list (point F))
    (Faces : list face) : option (spmatrix F) :=
  Some (SpMatrix (length Nodes, length Nodes)
          (foldl (λ d '(i, j), <[(j, i) := w]> (<[(i, j) := w]> d))
                 ∅ (concat (map face_edges Faces)))).

(** A stand-in for the solver: the first [k] diagonal quotients
    [A[i][i] / M[i][i]], with no eigenvectors. *)
Definition dense_of (X : operand float) : list (list float) :=
  match X with Sparse M => toarray M | Dense M => M end.

Definition diagonal (M : list (list float)) : list float :=
  imap (λ i row, default 0%float (row !! i)) M.

Definition quotient_solver (A : operand float) (k : nat) (M : operand float)
    : option (list float * list (list float)) :=
  Some (take k (zip_with PrimFloat.div (diagonal (dense_of A))
                                      (diagonal (dense_of M))
                ++ repeat 1%float k), []).

(** A solver that returns its values in the reverse order. *)
Definition reversed_solver (A : operand float) (k : nat) (M : operand float)
    : option (list float * list (list float)) :=
  '(ev, vecs) ← quotient_solver A k M; Some (reverse ev, vecs).

(** A solver that has settled on the other end of the spectrum: the last
    [k] diagonal quotients, last first. *)
Definition last_solver (A : operand float) (k : nat) (M : operand float)
    : option (list float * list (list float)) :=
  Some (take k (reverse (zip_with PrimFloat.div (diagonal (dense_of A))
                                               (diagonal (dense_of M)))
                ++ repeat 1%float k), []).

(** Two binary64 values within the absolute tolerance [tol]. *)
Definition within (tol x y : float) : Prop :=
  PrimFloat.leb (PrimFloat.abs (x - y)) tol = true.

(** A solver of real problems that returns [k] ones. *)
Definition ones_solver (A : operand R) (k : nat) (M : operand R)
    : option (list R * list (list R)) := Some (repeat 1%R k, []).

(** Collaborators that all raise. *)
Definition no_kernel (Nodes : list (point float)) (Faces : list face)
    : option (spmatrix float) := None.
Definition no_lists (Faces : list face) (n : nat)
    : option (list (list nat)) := None.
Definition no_solver (A : operand float) (k : nat) (M : operand float)
    : option (list float * list (list float)) := None.

Definition float_reciprocal (x : float) : float := (1 / x)%float.

Definition geometric (Nodes : list (point float)) (Faces : list face) :=
  geometric_laplacian float float_reciprocal unit_kernel find_neighbors
    find_faces_at_vertices quotient_solver Nodes Faces.

Definition fem (Nodes : list (point float)) (Faces : list face) :=
  fem_laplacian float float_reciprocal unit_kernel find_neighbors
    find_faces_at_vertices find_faces_at_edges find_edges quotient_solver
    Nodes Faces.

(** Three nodes on one line, and two more, with real coordinates. *)
Definition real_collinear_nodes : list (point R) :=
  [(0, 0, 0); (2, 0, 0); (9, 0, 0); (0, 1, 0); (0, 0, 1)]%R.

(** A kernel whose matrix has one column too many. *)
Definition wide_kernel {F : Type} `{Scalar F} (Nodes : list (point F))
    (Faces : list face) : option (spmatrix F) :=
  Some (SpMatrix (length Nodes, S (length Nodes)) ∅).

(** A small mesh for the mass builders: three nodes, one face, the edge
    list [(0,1), (1,2)], and a weight matrix with two mirrored entries. *)
Definition triangle_nodes : list (point R) :=
  [(0, 0, 0); (1, 0, 0); (0, 1, 0)]%R.
Definition triangle_faces : list face := [(0, 1, 2)].
Definition triangle_faces_at_nodes : list (list nat) := [[0]; [0]; [0]].
Definition triangle_edges : list edge := [(0, 1); (1, 2)].
Definition triangle_faces_at_edges : gmap edge (list nat) :=
  <[(0, 1) := [0]]> (<[(1, 2) := [0]]> ∅).
Definition mirrored_weights : spmatrix float :=
  SpMatrix (3, 3) (<[(0, 1) := 1%float]> (<[(1, 0) := 1%float]> ∅)).

(** Face lists in which the nodes 1 and 4 lie on no face. *)
Definition sparse_faces_at_nodes : list (list nat) :=
  [[0]; []; [0]; [0]; []].

(** The functions of the module with the sample collaborators plugged in. *)
Abbreviation valid :=
  (valid_mesh unit_kernel find_neighbors find_faces_at_vertices).
Abbreviation edges_valid := (valid_edges find_faces_at_edges find_edges).
Abbreviation prefix :=
  (prefix_run unit_kernel find_neighbors find_faces_at_vertices).
Abbreviation solved := (solve float float_reciprocal quotient_solver).

End Sample.

(** * Facts about the sparse-matrix operations *)

Section SparseFacts.
Context {F : Type} `{Scalar F}.
Implicit Types (M A B : spmatrix F) (d : gmap (nat * nat) F).

Lemma setdiag_from_lookup (values : list F) : ∀ k d i j,
  setdiag_from k values d !! (i, j)
  = if decide (i = j ∧ k ≤ i < k + length values)
    then values !! (i - k) else d !! (i, j).
Proof.
  induction values as [|v vs IH]; intros k d i j; simpl.
  - case_decide; [lia | done].
  - rewrite IH. destruct (decide (i = j)) as [->|Hij].
    + destruct (decide (j = k)) as [->|Hjk].
      * rewrite decide_False by lia. rewrite decide_True by lia.
        rewrite lookup_insert_eq. by rewrite Nat.sub_diag.
      * repeat case_decide; try lia.
        -- replace (j - k) with (S (j - S k)) by lia. done.
        -- rewrite lookup_insert_ne; [done | congruence].
    + rewrite !decide_False by tauto.
      rewrite lookup_insert_ne; [done | congruence].
Qed.

(** The stored entries after [lil_matrix((n,n)).setdiag(v)], [len(v) = n]. *)
Lemma setdiag_lil_lookup (n : nat) (v : list F) (i j : nat) :
  length v = n →
  sp_data (setdiag (lil_matrix (n, n)) v) !! (i, j)
  = if decide (i = j) then v !! i else None.
Proof.
  intros Hlen. unfold setdiag, lil_matrix; simpl.
  rewrite Nat.min_id, firstn_all2 by lia.
  rewrite setdiag_from_lookup, Nat.sub_0_r, lookup_empty.
  destruct (decide (i = j)) as [->|].
  - case_decide; [done|]. symmetry. apply lookup_ge_None. lia.
  - by rewrite decide_False by tauto.
Qed.

Lemma sp_div_lookup M (c : F) (i j : nat) :
  sp_data (sp_div M c) !! (i, j) = (λ x, fdiv x c) <$> sp_data M !! (i, j).
Proof. unfold sp_div; simpl. apply lookup_fmap. Qed.

Lemma shape_eqb_true (s t : nat * nat) : shape_eqb s t = true ↔ s = t.
Proof.
  destruct s, t; unfold shape_eqb; simpl.
  rewrite andb_true_iff, !Nat.eqb_eq. split; [intros []|intros [=]]; by subst.
Qed.

Lemma sp_sub_Some A B :
  sp_shape A = sp_shape B →
  sp_sub A B = Some (SpMatrix (sp_shape A)
                       (merge (sp_binop fsub) (sp_data A) (sp_data B))).
Proof.
  intros Hs. unfold sp_sub.
  by rewrite (proj2 (shape_eqb_true _ _) Hs).
Qed.

Lemma sp_add_Some A B :
  sp_shape A = sp_shape B →
  sp_add A B = Some (SpMatrix (sp_shape A)
                       (merge (sp_binop fadd) (sp_data A) (sp_data B))).
Proof.
  intros Hs. unfold sp_add.
  by rewrite (proj2 (shape_eqb_true _ _) Hs).
Qed.

Lemma sp_binop_lookup (op : F → F → F) d1 d2 (i j : nat) :
  merge (sp_binop op) d1 d2 !! (i, j)
  = sp_binop op (d1 !! (i, j)) (d2 !! (i, j)).
Proof.
  rewrite lookup_merge.
  by destruct (d1 !! (i, j)), (d2 !! (i, j)).
Qed.

Lemma sp_get_in_range M (i j : nat) :
  i < (sp_shape M).1 → j < (sp_shape M).2 →
  sp_get M i j = Some (sp_entry M i j).
Proof.
  intros Hi Hj. unfold sp_get, in_shape.
  by rewrite (proj2 (Nat.ltb_lt _ _) Hi), (proj2 (Nat.ltb_lt _ _) Hj).
Qed.

Lemma toarray_nth M (i j : nat) :
  i < (sp_shape M).1 → j < (sp_shape M).2 →
  dense_get (toarray M) i j = Some (sp_entry M i j).
Proof.
  intros Hi Hj. unfold dense_get, toarray.
  rewrite list_lookup_fmap, lookup_seq_lt by done. simpl.
  by rewrite list_lookup_fmap, lookup_seq_lt by done.
Qed.

(** ** Row sums *)

Lemma mapM_total_map {S T : Type} (f : S → option T) (g : S → T)
    (l : list S) :
  Forall (λ x, f x = Some (g x)) l → mapM f l = Some (map g l).
Proof.
  intros Hl. apply mapM_Some. induction Hl; constructor; auto.
Qed.

Lemma row_sums_Some (X : nat → nat → option F) (g : nat → nat → F)
    (Index : list (list nat)) (n : nat) :
  n ≤ length Index →
  (∀ i Ii, i < n → Index !! i = Some Ii →
           Forall (λ j, X i j = Some (g i j)) Ii) →
  ∃ v, row_sums X Index n = Some v ∧ length v = n ∧
       ∀ i Ii, i < n → Index !! i = Some Ii →
               v !! i = Some (pysum (map (g i) Ii)).
Proof.
  intros Hlen HX.
  set (h := λ i, pysum (map (g i) (default [] (Index !! i)))).
  exists (map h (seq 0 n)). split; [|split].
  - unfold row_sums. apply mapM_total_map.
    apply Forall_forall. intros i Hi.
    apply list_elem_of_In, in_seq in Hi.
    destruct (lookup_lt_is_Some_2 Index i) as [Ii HIi]; [lia|].
    rewrite HIi; simpl.
    rewrite (mapM_total_map _ (g i)) by (apply (HX i); [lia|done]).
    simpl. unfold h. by rewrite HIi.
  - by rewrite length_map, length_seq.
  - intros i Ii Hi HIi.
    rewrite list_lookup_fmap, lookup_seq_lt by done. simpl.
    unfold h. by rewrite HIi.
Qed.

End SparseFacts.

(** * Facts about the assembly stages *)

Section StageFacts.
Context {F : Type} `{Scalar F}.
Implicit Types (W V A P Q : spmatrix F) (Area : list F).

(** The diagonal builder shared by [gen_V], [masses] and [gen_Q]. *)
Lemma diag_build (X : nat → nat → option F) (g : nat → nat → F)
    (Index : list (list nat)) (n : nat) (c : F) :
  n ≤ length Index →
  (∀ i Ii, i < n → Index !! i = Some Ii →
           Forall (λ j, X i j = Some (g i j)) Ii) →
  ∃ v, row_sums X Index n = Some v ∧
       ∀ i j, sp_data (sp_div (setdiag (lil_matrix (n, n)) v) c) !! (i, j)
              = if decide (i = j ∧ i < n)
                then Some (fdiv (sum_over (g i) (default [] (Index !! i))) c)
                else None.
Proof.
  intros Hlen HX.
  destruct (row_sums_Some X g Index n Hlen HX) as (v & Hv & Hvlen & Hvi).
  exists v. split; [done|]. intros i j.
  rewrite sp_div_lookup, setdiag_lil_lookup by done.
  destruct (decide (i = j)) as [->|Hij].
  - destruct (decide (j < n)) as [Hj|Hj].
    + rewrite decide_True by done.
      destruct (lookup_lt_is_Some_2 Index j) as [Ij HIj]; [lia|].
      rewrite (Hvi j Ij Hj HIj), HIj. done.
    + rewrite decide_False by tauto.
      rewrite (proj2 (lookup_ge_None v j)) by lia. done.
  - by rewrite decide_False by tauto.
Qed.

Lemma lookup_area_at Area (fs : list nat) :
  Forall (λ f, f < length Area) fs →
  Forall (λ f, Area !! f = Some (area_at Area f)) fs.
Proof.
  intros Hfs. eapply Forall_impl; [exact Hfs|].
  intros f Hf. simpl in Hf. unfold area_at.
  destruct (lookup_lt_is_Some_2 Area f Hf) as [x ->]. done.
Qed.

Lemma gen_V_entries (Meshes : list face) W (Neighbor : list (list nat))
    (n : nat) :
  sp_shape W = (n, n) →
  length Neighbor = n →
  Forall (Forall (λ j, j < n)) Neighbor →
  ∃ V, gen_V Meshes W Neighbor = Some V ∧ sp_shape V = (n, n) ∧
       ∀ i j, sp_data V !! (i, j)
              = if decide (i = j ∧ i < n)
                then Some (spec_V W Neighbor i) else None.
Proof.
  intros HW Hlen Hnb.
  destruct (diag_build (λ i j, sp_get W i j) (sp_entry W) Neighbor n
              (of_int 3)) as (v & Hv & Hent); [lia| |].
  { intros i Ii Hi HIi.
    eapply Forall_impl; [exact (Forall_lookup_1 _ _ _ _ Hnb HIi)|].
    intros j Hj. simpl in Hj. apply sp_get_in_range; rewrite HW; simpl; lia. }
  exists (sp_div (setdiag (lil_matrix (n, n)) v) (of_int 3)).
  split; [|split; [done|exact Hent]].
  unfold gen_V. rewrite HW; simpl. by rewrite Hv.
Qed.

Lemma masses_entries (Nodes : list (point F)) Area
    (Faces_at_Nodes : list (list nat)) :
  length Faces_at_Nodes = length Nodes →
  Forall (Forall (λ f, f < length Area)) Faces_at_Nodes →
  ∃ D, masses Nodes Area Faces_at_Nodes = Some D ∧
       sp_shape D = (length Nodes, length Nodes) ∧
       ∀ i j, sp_data D !! (i, j)
              = if decide (i = j ∧ i < length Nodes)
                then Some (spec_D Area Faces_at_Nodes i i) else None.
Proof.
  intros Hlen Hfs.
  destruct (diag_build (λ _ j, Area !! j) (λ _, area_at Area) Faces_at_Nodes
              (length Nodes) (of_int 3)) as (d & Hd & Hent); [lia| |].
  { intros i Ii Hi HIi. apply lookup_area_at.
    exact (Forall_lookup_1 _ _ _ _ Hfs HIi). }
  exists (sp_div (setdiag (lil_matrix (length Nodes, length Nodes)) d)
            (of_int 3)).
  split; [|split; [reflexivity|]].
  - unfold masses. rewrite Hd. reflexivity.
  - intros i j. simpl. rewrite Hent. case_decide; [|done].
    unfold spec_D. by rewrite (decide_True (P := i = i)).
Qed.

Lemma gen_Q_entries (edges : list edge) (fae : gmap edge (list nat)) Area
    (n : nat) (Neighbor Faces_at_Nodes : list (list nat)) :
  length Faces_at_Nodes = n →
  Forall (Forall (λ f, f < length Area)) Faces_at_Nodes →
  ∃ Q, gen_Q edges fae Area n Neighbor Faces_at_Nodes = Some Q ∧
       sp_shape Q = (n, n) ∧
       ∀ i j, sp_data Q !! (i, j)
              = if decide (i = j ∧ i < n)
                then Some (spec_Q Area Faces_at_Nodes i i) else None.
Proof.
  intros Hlen Hfs.
  destruct (diag_build (λ _ j, Area !! j) (λ _, area_at Area) Faces_at_Nodes
              n (of_int 6)) as (q & Hq & Hent); [lia| |].
  { intros i Ii Hi HIi. apply lookup_area_at.
    exact (Forall_lookup_1 _ _ _ _ Hfs HIi). }
  exists (sp_div (setdiag (lil_matrix (n, n)) q) (of_int 6)).
  split; [|split; [reflexivity|]].
  - unfold gen_Q. rewrite Hq. reflexivity.
  - intros i j. simpl. rewrite Hent. case_decide; [|done].
    unfold spec_Q. by rewrite (decide_True (P := i = i)).
Qed.

(** The edge loop of [gen_P]: when it returns, the stored entries are those
    it was given, overwritten at every listed edge by the area sum. *)
Lemma gen_P_loop_entries (fae : gmap edge (list nat)) Area :
  ∀ (edges : list edge) P0 P,
  gen_P_loop edges fae Area P0 = Some P →
  sp_shape P = sp_shape P0 ∧
  ∀ i j, sp_data P !! (i, j)
         = if decide ((i, j) ∈ edges)
           then fs ← fae !! (i, j);
                xs ← mapM (λ f, Area !! f) fs;
                Some (pysum xs)
           else sp_data P0 !! (i, j).
Proof.
  induction edges as [|[a b] rest IH]; intros P0 P Hrun; simpl in Hrun.
  - injection Hrun as <-. split; [done|]. intros i j.
    rewrite decide_False; [done | apply not_elem_of_nil].
  - destruct (fae !! (a, b)) as [fs|] eqn:Hfs; [|done]. simpl in Hrun.
    destruct (mapM (λ f, Area !! f) fs) as [xs|] eqn:Hxs; [|done].
    simpl in Hrun. unfold sp_set in Hrun.
    destruct (in_shape P0 a b); [|done]. simpl in Hrun.
    destruct (IH _ _ Hrun) as [Hshape Hent]. split; [done|].
    intros i j. rewrite Hent. simpl.
    destruct (decide ((i, j) ∈ rest)) as [Hin|Hin].
    + rewrite decide_True; [done | rewrite elem_of_cons; tauto].
    + destruct (decide ((i, j) = (a, b))) as [[= -> ->]|Hne].
      * rewrite decide_True by (rewrite elem_of_cons; tauto).
        rewrite lookup_insert_eq, Hfs. simpl. by rewrite Hxs.
      * rewrite decide_False.
        -- rewrite lookup_insert_ne; [done | congruence].
        -- rewrite elem_of_cons. tauto.
Qed.

Lemma gen_P_loop_total (fae : gmap edge (list nat)) Area (n : nat) :
  ∀ (edges : list edge) P0,
  sp_shape P0 = (n, n) →
  Forall (λ e : edge, e.1 < n ∧ e.2 < n ∧
            ∃ fs, fae !! e = Some fs ∧ Forall (λ f, f < length Area) fs)
         edges →
  is_Some (gen_P_loop edges fae Area P0).
Proof.
  induction edges as [|[a b] rest IH]; intros P0 HP0 Hok.
  - by eexists.
  - apply Forall_cons in Hok as [(Ha & Hb & fs & Hfs & Hin) Hrest].
    simpl in Ha, Hb. cbn [gen_P_loop]. rewrite Hfs. cbn [mbind option_bind].
    rewrite (mapM_total_map _ _ _ (lookup_area_at _ _ Hin)).
    cbn [mbind option_bind].
    unfold sp_set, in_shape. rewrite HP0. cbn [fst snd].
    rewrite (proj2 (Nat.ltb_lt _ _) Ha), (proj2 (Nat.ltb_lt _ _) Hb).
    cbn [andb mbind option_bind].
    apply IH; [done | exact Hrest].
Qed.

Lemma gen_P_entries (edges : list edge) (fae : gmap edge (list nat)) Area
    (n : nat) :
  Forall (λ e : edge, e.1 < n ∧ e.2 < n ∧
            ∃ fs, fae !! e = Some fs ∧ Forall (λ f, f < length Area) fs)
         edges →
  ∃ P, gen_P edges fae Area n = Some P ∧ sp_shape P = (n, n) ∧
       ∀ i j, sp_data P !! (i, j)
              = if decide ((i, j) ∈ edges)
                then Some (spec_P edges fae Area i j) else None.
Proof.
  intros Hok.
  destruct (gen_P_loop_total fae Area n edges (lil_matrix (n, n)) eq_refl Hok)
    as [P0 HP0].
  destruct (gen_P_loop_entries fae Area _ _ _ HP0) as [Hshape Hent].
  exists (sp_div P0 (of_int 12)). split; [|split].
  - unfold gen_P. by rewrite HP0.
  - done.
  - intros i j. rewrite sp_div_lookup, Hent. unfold spec_P.
    destruct (decide ((i, j) ∈ edges)) as [Hin|Hin];
      [|by unfold lil_matrix; cbn [sp_data]; rewrite lookup_empty].
    pose proof (proj1 (Forall_forall _ _) Hok _ Hin) as (_ & _ & fs & Hfs & Hr).
    rewrite Hfs; simpl.
    rewrite (mapM_total_map _ _ _ (lookup_area_at _ _ Hr)). done.
Qed.

(** [area] returns one value per face when the face indices are in range. *)
Lemma area_entries (Nodes : list (point F)) (Meshes : list face) :
  Forall (λ t : face, t.1.1 < length Nodes ∧ t.1.2 < length Nodes
                      ∧ t.2 < length Nodes) Meshes →
  ∃ Area, area Nodes Meshes = Some Area ∧ length Area = length Meshes ∧
          ∀ k t, Meshes !! k = Some t →
                 ∃ p0 p1 p2, Nodes !! t.1.1 = Some p0 ∧
                             Nodes !! t.1.2 = Some p1 ∧
                             Nodes !! t.2 = Some p2 ∧
                             Area !! k = Some (heron p0 p1 p2).
Proof.
  intros Hok.
  assert (is_Some (area Nodes Meshes)) as [Area HArea].
  { apply mapM_is_Some. eapply Forall_impl; [exact Hok|].
    intros t (H0 & H1 & H2). unfold compose, triangle_area.
    destruct (lookup_lt_is_Some_2 _ _ H0) as [p0 ->].
    destruct (lookup_lt_is_Some_2 _ _ H1) as [p1 ->].
    destruct (lookup_lt_is_Some_2 _ _ H2) as [p2 ->]. by eexists. }
  exists Area. split; [done|]. split.
  { symmetry. exact (length_mapM _ _ _ HArea). }
  intros k t Hk. apply mapM_Some in HArea.
  destruct (Forall2_lookup_l _ _ _ _ _ HArea Hk) as (x & Hx & Ht).
  unfold triangle_area in Ht.
  destruct (Nodes !! t.1.1) as [p0|]; [|done]. simpl in Ht.
  destruct (Nodes !! t.1.2) as [p1|]; [|done]. simpl in Ht.
  destruct (Nodes !! t.2) as [p2|]; [|done]. simpl in Ht.
  exists p0, p1, p2. by injection Ht as <-.
Qed.

(** C2, as the code has it.  [area] looks at no radicand: it raises only
    when a face index is out of range, and otherwise stores, for every face,
    the square root of [s(s-a)(s-b)(s-c)] whatever its sign; a negative
    radicand therefore yields what the square root yields for it (NaN in
    binary64), and no error. *)
Theorem area_without_radicand_check (Nodes : list (point F))
    (Meshes : list face) :
  (is_Some (area Nodes Meshes)
   ↔ Forall (λ t : face, t.1.1 < length Nodes ∧ t.1.2 < length Nodes
                         ∧ t.2 < length Nodes) Meshes) ∧
  (∀ Area, area Nodes Meshes = Some Area →
     length Area = length Meshes ∧
     ∀ k t p0 p1 p2,
       Meshes !! k = Some t →
       Nodes !! t.1.1 = Some p0 → Nodes !! t.1.2 = Some p1 →
       Nodes !! t.2 = Some p2 →
       Area !! k
       = Some (fsqrt (heron_radicand (norm (vsub p0 p1)) (norm (vsub p1 p2))
                                     (norm (vsub p2 p0))))).
Proof.
  split.
  - split.
    + intros Hsome. apply mapM_is_Some in Hsome.
      eapply Forall_impl; [exact Hsome|]. intros t. unfold compose.
      unfold triangle_area. intros [x Hx].
      destruct (Nodes !! t.1.1) as [p0|] eqn:H0; [|done].
      destruct (Nodes !! t.1.2) as [p1|] eqn:H1; [|done].
      destruct (Nodes !! t.2) as [p2|] eqn:H2; [|done].
      repeat split; eapply lookup_lt_Some; eassumption.
    + intros Hok. destruct (area_entries Nodes Meshes Hok) as (Area & -> & _).
      by eexists.
  - intros Area HArea. split.
    + symmetry. exact (length_mapM _ _ _ HArea).
    + intros k t p0 p1 p2 Hk H0 H1 H2. apply mapM_Some in HArea.
      destruct (Forall2_lookup_l _ _ _ _ _ HArea Hk) as (x & Hx & Ht).
      unfold triangle_area in Ht. rewrite H0, H1, H2 in Ht.
      cbn [mbind option_bind] in Ht. by injection Ht as <-.
Qed.

Lemma gen_P_lookup (edges : list edge) (fae : gmap edge (list nat)) Area
    (n : nat) P :
  gen_P edges fae Area n = Some P →
  ∀ i j, sp_data P !! (i, j)
         = if decide ((i, j) ∈ edges)
           then (λ x, fdiv x (of_int 12))
                  <$> (fs ← fae !! (i, j);
                       xs ← mapM (λ f, Area !! f) fs;
                       Some (pysum xs))
           else None.
Proof.
  unfold gen_P. intros HP i j.
  destruct (gen_P_loop edges fae Area (lil_matrix (n, n))) as [P0|] eqn:HP0;
    [|done].
  cbn [mbind option_bind] in HP. injection HP as <-.
  destruct (gen_P_loop_entries fae Area _ _ _ HP0) as [_ Hent].
  rewrite sp_div_lookup, Hent.
  destruct (decide ((i, j) ∈ edges)); [done|].
  by unfold lil_matrix; cbn [sp_data]; rewrite lookup_empty.
Qed.

Lemma gen_Q_off_diagonal (edges : list edge) (fae : gmap edge (list nat))
    Area (n : nat) (Neighbor Faces_at_Nodes : list (list nat)) Q (i j : nat) :
  gen_Q edges fae Area n Neighbor Faces_at_Nodes = Some Q →
  i ≠ j → sp_data Q !! (i, j) = None.
Proof.
  unfold gen_Q. intros HQ Hij.
  destruct (row_sums _ Faces_at_Nodes n) as [q|]; [|done].
  cbn [mbind option_bind] in HQ. injection HQ as <-.
  rewrite sp_div_lookup. unfold setdiag, lil_matrix. cbn [sp_data sp_shape].
  rewrite setdiag_from_lookup, decide_False by tauto.
  by rewrite lookup_empty.
Qed.

Lemma sp_add_lookup P Q B (i j : nat) :
  sp_add P Q = Some B →
  sp_data B !! (i, j) = sp_binop fadd (sp_data P !! (i, j))
                                      (sp_data Q !! (i, j)).
Proof.
  unfold sp_add. destruct (shape_eqb _ _); [|done].
  intros [= <-]. cbn [sp_data]. apply sp_binop_lookup.
Qed.

Lemma gen_P_loop_shape (fae : gmap edge (list nat)) Area :
  ∀ (edges : list edge) P0 P,
  gen_P_loop edges fae Area P0 = Some P → sp_shape P = sp_shape P0.
Proof. intros edges P0 P HP. by destruct (gen_P_loop_entries _ _ _ _ _ HP). Qed.

Lemma gen_P_loop_returns (fae : gmap edge (list nat)) Area (n : nat) :
  ∀ (edges : list edge) P0,
  sp_shape P0 = (n, n) →
  is_Some (gen_P_loop edges fae Area P0) →
  Forall (λ e : edge, e.1 < n ∧ e.2 < n ∧
            ∃ fs, fae !! e = Some fs ∧ Forall (λ f, f < length Area) fs)
         edges.
Proof.
  induction edges as [|[a b] rest IH]; intros P0 HP0 Hsome; [constructor|].
  cbn [gen_P_loop] in Hsome.
  destruct (fae !! (a, b)) as [fs|] eqn:Hfs; [|by destruct Hsome].
  cbn [mbind option_bind] in Hsome.
  destruct (mapM (λ f, Area !! f) fs) as [xs|] eqn:Hxs; [|by destruct Hsome].
  cbn [mbind option_bind] in Hsome.
  destruct (sp_set P0 a b (pysum xs)) as [P'|] eqn:Hset;
    [|by destruct Hsome].
  cbn [mbind option_bind] in Hsome.
  unfold sp_set in Hset.
  destruct (in_shape P0 a b) eqn:Hin; [|done]. injection Hset as <-.
  unfold in_shape in Hin. rewrite HP0 in Hin. simpl in Hin.
  apply andb_true_iff in Hin as [Ha Hb].
  apply Nat.ltb_lt in Ha. apply Nat.ltb_lt in Hb.
  constructor.
  - simpl. split; [done|]. split; [done|]. exists fs. split; [done|].
    assert (is_Some (mapM (λ f, Area !! f) fs)) as Hs by (by rewrite Hxs).
    apply mapM_is_Some_1 in Hs. eapply Forall_impl; [exact Hs|].
    intros f Hf. by apply lookup_lt_is_Some.
  - eapply IH; [|exact Hsome]. exact HP0.
Qed.

Lemma gen_P_is_Some (edges : list edge) (fae : gmap edge (list nat))
    Area (n : nat) :
  is_Some (gen_P edges fae Area n)
  ↔ Forall (λ e : edge, e.1 < n ∧ e.2 < n ∧
              ∃ fs, fae !! e = Some fs ∧ Forall (λ f, f < length Area) fs)
           edges.
Proof.
  split.
  - intros Hsome. apply (gen_P_loop_returns fae Area n edges
                           (lil_matrix (n, n)) eq_refl).
    unfold gen_P in Hsome. destruct (gen_P_loop _ _ _ _); [by eexists|].
    by destruct Hsome.
  - intros Hok. by destruct (gen_P_entries edges fae Area n Hok) as (P & -> & _).
Qed.

(** C7, as the code has it.  [gen_P] writes [P[i,j]] for the index pairs
    of the edge list only and mirrors nothing.  At a listed edge [(i,j)],
    [i ≠ j], it stores the sum of the areas of the faces the dictionary
    gives for [(i,j)], divided by 12, and [B[i,j]] is that value plus the
    unstored zero of [Q].  [B[j,i]] equals [B[i,j]] when the edge list also
    holds [(j,i)] and the dictionary gives both orderings the same faces;
    when [(j,i)] is not listed, nothing is stored at [(j,i)], [B[j,i]] is
    zero, and [B] is not symmetric there unless [B[i,j]] is zero too. *)
Theorem fem_mass_mirrored (edges : list edge) (fae : gmap edge (list nat))
    Area (n : nat) (Neighbor Faces_at_Nodes : list (list nat)) P Q B
    (i j : nat) :
  gen_P edges fae Area n = Some P →
  gen_Q edges fae Area n Neighbor Faces_at_Nodes = Some Q →
  sp_add P Q = Some B →
  i ≠ j → (i, j) ∈ edges →
  (∃ fs, fae !! (i, j) = Some fs ∧
         sp_data P !! (i, j)
         = Some (fdiv (sum_over (area_at Area) fs) (of_int 12)) ∧
         sp_entry B i j
         = fadd (fdiv (sum_over (area_at Area) fs) (of_int 12)) fzero) ∧
  (∀ a b, (a, b) ∉ edges → sp_data P !! (a, b) = None) ∧
  ((j, i) ∈ edges → fae !! (j, i) = fae !! (i, j) →
     sp_entry B j i = sp_entry B i j) ∧
  ((j, i) ∉ edges →
     sp_entry B j i = fzero ∧
     (sp_entry B i j ≠ fzero → sp_entry B j i ≠ sp_entry B i j)).
Proof.
  intros HP HQ HB Hij Hin.
  pose proof (gen_P_lookup _ _ _ _ _ HP) as HPe.
  assert (∀ a b, a ≠ b → sp_entry B a b
            = default fzero (sp_binop fadd (sp_data P !! (a, b)) None)) as HBe.
  { intros a b Hab. unfold sp_entry.
    by rewrite (sp_add_lookup _ _ _ _ _ HB),
      (gen_Q_off_diagonal _ _ _ _ _ _ _ _ _ HQ Hab). }
  split; [|split; [|split]].
  - assert (is_Some (gen_P edges fae Area n)) as Hsome by (by rewrite HP).
    apply gen_P_is_Some in Hsome.
    pose proof (proj1 (Forall_forall _ _) Hsome _ Hin)
      as (_ & _ & fs & Hfs & Hr).
    cbn [fst snd] in Hfs.
    assert (sp_data P !! (i, j)
            = Some (fdiv (sum_over (area_at Area) fs) (of_int 12))) as HPij.
    { rewrite HPe, decide_True by done. rewrite Hfs. cbn [mbind option_bind].
      by rewrite (mapM_total_map _ _ _ (lookup_area_at _ _ Hr)). }
    exists fs. split; [done|]. split; [done|].
    by rewrite HBe, HPij by done.
  - intros a b Hab. by rewrite HPe, decide_False by done.
  - intros Hji Hfae. rewrite !HBe by done. rewrite !HPe.
    rewrite !decide_True by done. by rewrite Hfae.
  - intros Hji.
    assert (sp_entry B j i = fzero) as Hzero.
    { rewrite HBe by done. rewrite HPe. by rewrite decide_False by done. }
    split; [done|]. intros Hne. by rewrite Hzero.
Qed.

End StageFacts.

(** * Facts about the portal functions *)

(** Case analysis on the first computation of a chain of binds. *)
Ltac bind_head :=
  match goal with
  | |- context [mbind _ ?x] =>
      lazymatch x with
      | mbind _ _ => fail
      | _ => destruct x as [?|] eqn:?; cbn [mbind option_bind]
      end
  end.

Section PortalFacts.
Context {F : Type} `{Scalar F}.
Variable C : Type.
Variable reciprocal : C → C.
Variable cotangent_kernel : list (point F) → list face → option (spmatrix F).
Variable find_neighbors : list face → nat → option (list (list nat)).
Variable find_faces_at_vertices : list face → nat → option (list (list nat)).
Variable find_faces_at_edges : list face → option (gmap edge (list nat)).
Variable find_edges : list face → option (list edge).

Section OneSolver.
Variable eigs : operand F → nat → operand F → option (list C * list (list C)).

Local Abbreviation geometric :=
  (geometric_laplacian C reciprocal cotangent_kernel find_neighbors
     find_faces_at_vertices eigs).
Local Abbreviation fem :=
  (fem_laplacian C reciprocal cotangent_kernel find_neighbors
     find_faces_at_vertices find_faces_at_edges find_edges eigs).
Local Abbreviation precomp :=
  (precomputation cotangent_kernel find_neighbors find_faces_at_vertices).
Local Abbreviation geometric_ops :=
  (geometric_operands cotangent_kernel find_neighbors find_faces_at_vertices).
Local Abbreviation fem_ops :=
  (fem_operands cotangent_kernel find_neighbors find_faces_at_vertices
     find_faces_at_edges find_edges).
Local Abbreviation solved := (solve C reciprocal eigs).
Local Abbreviation valid :=
  (valid_mesh cotangent_kernel find_neighbors find_faces_at_vertices).
Local Abbreviation edges_valid :=
  (valid_edges find_faces_at_edges find_edges).
Local Abbreviation sentinel :=
  ([too_small], Some (IntArray [-1; -1; -1; -1; -1]%Z)).
Local Abbreviation half W := (sp_div W (of_int 2)).
Local Abbreviation prefix W Nb FaN V A Area Nodes Faces :=
  (prefix_run cotangent_kernel find_neighbors find_faces_at_vertices
     Nodes Faces W Nb FaN V A Area).

Lemma geometric_laplacian_small (Nodes : list (point F)) (Faces : list face) :
  length Nodes < 5 → geometric Nodes Faces = sentinel.
Proof.
  intros Hn. unfold geometric_laplacian.
  by rewrite (proj2 (Nat.ltb_lt _ _) Hn).
Qed.

Lemma fem_laplacian_small (Nodes : list (point F)) (Faces : list face) :
  length Nodes < 5 → fem Nodes Faces = sentinel.
Proof.
  intros Hn. unfold fem_laplacian.
  by rewrite (proj2 (Nat.ltb_lt _ _) Hn).
Qed.

(** Above the guard the portal functions are their stages in sequence. *)
Lemma geometric_laplacian_stages (Nodes : list (point F)) (Faces : list face) :
  5 ≤ length Nodes →
  geometric Nodes Faces = ([], solved (geometric_ops Nodes Faces)).
Proof.
  intros Hn. unfold geometric_laplacian.
  rewrite (proj2 (Nat.ltb_ge _ _) Hn). f_equal.
  unfold solve, geometric_operands, precomputation.
  repeat (bind_head; [|reflexivity]). reflexivity.
Qed.

Lemma fem_laplacian_stages (Nodes : list (point F)) (Faces : list face) :
  5 ≤ length Nodes →
  fem Nodes Faces = ([], solved (fem_ops Nodes Faces)).
Proof.
  intros Hn. unfold fem_laplacian.
  rewrite (proj2 (Nat.ltb_ge _ _) Hn). f_equal.
  unfold solve, fem_operands, precomputation.
  repeat (bind_head; [|reflexivity]). reflexivity.
Qed.

Lemma prefix_run_precomputation (Nodes : list (point F)) (Faces : list face)
    W Nb FaN V A Area :
  prefix W Nb FaN V A Area Nodes Faces →
  precomp Nodes Faces = Some (A, Nb, Area, FaN).
Proof.
  intros [HW HNb HV HA HArea HFaN]. unfold precomputation.
  rewrite HW; cbn [mbind option_bind]. rewrite HNb; cbn [mbind option_bind].
  rewrite HV; cbn [mbind option_bind]. rewrite HA; cbn [mbind option_bind].
  rewrite HArea; cbn [mbind option_bind]. by rewrite HFaN.
Qed.

(** On a valid mesh the common prefix returns, and the stiffness matrix it
    returns stores [V - W/2] on the union of the two patterns. *)
Lemma precomputation_valid (Nodes : list (point F)) (Faces : list face) :
  valid Nodes Faces →
  ∃ W Nb FaN V A Area,
    prefix W Nb FaN V A Area Nodes Faces ∧
    sp_shape W = (length Nodes, length Nodes) ∧
    length Nb = length Nodes ∧
    Forall (Forall (λ j, j < length Nodes)) Nb ∧
    length FaN = length Nodes ∧
    Forall (Forall (λ f, f < length Area)) FaN ∧
    length Area = length Faces ∧
    sp_shape A = (length Nodes, length Nodes) ∧
    ∀ i j, sp_data A !! (i, j)
           = sp_binop fsub
               (if decide (i = j ∧ i < length Nodes)
                then Some (spec_V (half W) Nb i) else None)
               (sp_data (half W) !! (i, j)).
Proof.
  intros (Hfaces & (W & HW & HWs) & (Nb & HNb & HNbl & HNbr)
          & (FaN & HFaN & HFaNl & HFaNr)).
  destruct (gen_V_entries Faces (half W) Nb (length Nodes))
    as (V & HV & HVs & HVe); [done..|].
  destruct (area_entries Nodes Faces Hfaces) as (Area & HArea & HAl & _).
  assert (sp_shape V = sp_shape (half W)) as Hsame by (by rewrite HVs).
  exists W, Nb, FaN, V,
    (SpMatrix (sp_shape V)
       (merge (sp_binop fsub) (sp_data V) (sp_data (half W)))), Area.
  split; [constructor; try done; by apply sp_sub_Some|].
  repeat split; try done.
  - by rewrite HAl.
  - intros i j. cbn [sp_data]. by rewrite sp_binop_lookup, HVe.
Qed.

Lemma stiffness_entry (W A : spmatrix F) (Nb : list (list nat)) (n : nat) :
  fsub fzero fzero = fzero →
  (∀ i j, sp_data A !! (i, j)
          = sp_binop fsub
              (if decide (i = j ∧ i < n) then Some (spec_V W Nb i) else None)
              (sp_data W !! (i, j))) →
  ∀ i j, i < n → j < n → sp_entry A i j = spec_A W Nb i j.
Proof.
  intros Hz HA i j Hi Hj. unfold sp_entry, spec_A. rewrite HA.
  destruct (decide (i = j)) as [->|Hij].
  - rewrite decide_True by done. unfold sp_entry.
    by destruct (sp_data W !! (j, j)).
  - rewrite decide_False by tauto. unfold sp_entry.
    by destruct (sp_data W !! (i, j)).
Qed.

Lemma solve_Some (A M : operand F) :
  solved (Some (A, M))
  = (λ r, EigArray (map reciprocal r.1)) <$> eigs A 3 M.
Proof.
  unfold solve. cbn [mbind option_bind].
  by destruct (eigs A 3 M) as [[ev vecs]|].
Qed.

Lemma geometric_operands_valid (Nodes : list (point F)) (Faces : list face)
    W Nb FaN V A Area :
  prefix W Nb FaN V A Area Nodes Faces →
  length FaN = length Nodes →
  Forall (Forall (λ f, f < length Area)) FaN →
  ∃ D, masses Nodes Area FaN = Some D ∧
       sp_shape D = (length Nodes, length Nodes) ∧
       geometric_ops Nodes Faces = Some (Sparse A, Dense (toarray D)) ∧
       ∀ i j, sp_data D !! (i, j)
              = if decide (i = j ∧ i < length Nodes)
                then Some (spec_D Area FaN i i) else None.
Proof.
  intros Hrun HFaNl HFaNr.
  destruct (masses_entries Nodes Area FaN HFaNl HFaNr) as (D & HD & HDs & HDe).
  exists D. repeat split; try done.
  unfold geometric_operands.
  rewrite (prefix_run_precomputation _ _ _ _ _ _ _ _ Hrun).
  cbn [mbind option_bind]. by rewrite HD.
Qed.

Lemma fem_operands_valid (Nodes : list (point F)) (Faces : list face)
    W Nb FaN V A Area :
  prefix W Nb FaN V A Area Nodes Faces →
  length FaN = length Nodes →
  Forall (Forall (λ f, f < length Area)) FaN →
  length Area = length Faces →
  edges_valid Nodes Faces →
  ∃ fae es P Q B,
    find_faces_at_edges Faces = Some fae ∧
    find_edges Faces = Some es ∧
    gen_P es fae Area (length Nodes) = Some P ∧
    gen_Q es fae Area (length Nodes) Nb FaN = Some Q ∧
    sp_add P Q = Some B ∧
    fem_ops Nodes Faces = Some (Dense (toarray A), Dense (toarray B)) ∧
    sp_shape B = (length Nodes, length Nodes) ∧
    (∀ i j, sp_data P !! (i, j)
            = if decide ((i, j) ∈ es)
              then Some (spec_P es fae Area i j) else None) ∧
    (∀ i j, sp_data Q !! (i, j)
            = if decide (i = j ∧ i < length Nodes)
              then Some (spec_Q Area FaN i i) else None) ∧
    (∀ i j, sp_data B !! (i, j)
            = sp_binop fadd (sp_data P !! (i, j)) (sp_data Q !! (i, j))).
Proof.
  intros Hrun HFaNl HFaNr HAl (fae & es & Hfae & Hes & Hok).
  rewrite <- HAl in Hok.
  destruct (gen_P_entries es fae Area (length Nodes) Hok)
    as (P & HP & HPs & HPe).
  destruct (gen_Q_entries es fae Area (length Nodes) Nb FaN HFaNl HFaNr)
    as (Q & HQ & HQs & HQe).
  assert (sp_shape P = sp_shape Q) as Hsame by (by rewrite HPs, HQs).
  exists fae, es, P, Q,
    (SpMatrix (sp_shape P) (merge (sp_binop fadd) (sp_data P) (sp_data Q))).
  repeat split; try done.
  - by apply sp_add_Some.
  - unfold fem_operands.
    rewrite (prefix_run_precomputation _ _ _ _ _ _ _ _ Hrun).
    cbn [mbind option_bind].
    rewrite Hfae; cbn [mbind option_bind]. rewrite Hes; cbn [mbind option_bind].
    rewrite HP; cbn [mbind option_bind]. rewrite HQ; cbn [mbind option_bind].
    by rewrite (sp_add_Some P Q Hsame).
  - intros i j. cbn [sp_data]. apply sp_binop_lookup.
Qed.

(** C1. Below five nodes both portal functions print the notice and return
    the five-element array of -1, whatever the collaborators are (they are
    not consulted: the result is the same when every one of them raises).
    From five nodes on, on a valid mesh, each portal function builds its two
    matrices and calls the solver on them; when the solver returns, on these
    operands, the three eigenvalues it is asked for, the portal function
    returns an array of exactly three values, and when the solver raises on
    them, so does the portal function.  Nothing is asked of the solver on
    any other operands. *)
Theorem spectrum_size (Nodes : list (point F)) (Faces : list face) :
  (length Nodes < 5 →
     geometric Nodes Faces = sentinel ∧ fem Nodes Faces = sentinel) ∧
  (5 ≤ length Nodes → valid Nodes Faces → edges_valid Nodes Faces →
   ∃ W Nb FaN V A Area D fae es P Q B,
     prefix W Nb FaN V A Area Nodes Faces ∧
     masses Nodes Area FaN = Some D ∧
     find_faces_at_edges Faces = Some fae ∧
     find_edges Faces = Some es ∧
     gen_P es fae Area (length Nodes) = Some P ∧
     gen_Q es fae Area (length Nodes) Nb FaN = Some Q ∧
     sp_add P Q = Some B ∧
     (∀ ev vecs,
        eigs (Sparse A) 3 (Dense (toarray D)) = Some (ev, vecs) →
        length ev = 3 →
        ∃ l, geometric Nodes Faces = ([], Some (EigArray l)) ∧ length l = 3) ∧
     (eigs (Sparse A) 3 (Dense (toarray D)) = None →
        geometric Nodes Faces = ([], None)) ∧
     (∀ ev vecs,
        eigs (Dense (toarray A)) 3 (Dense (toarray B)) = Some (ev, vecs) →
        length ev = 3 →
        ∃ l, fem Nodes Faces = ([], Some (EigArray l)) ∧ length l = 3) ∧
     (eigs (Dense (toarray A)) 3 (Dense (toarray B)) = None →
        fem Nodes Faces = ([], None))).
Proof.
  split.
  - intros Hn. split.
    + by apply geometric_laplacian_small.
    + by apply fem_laplacian_small.
  - intros Hn Hv He.
    destruct (precomputation_valid Nodes Faces Hv)
      as (W & Nb & FaN & V & A & Area & Hrun & _ & _ & _ & HFl & HFr & HAl & _).
    destruct (geometric_operands_valid _ _ _ _ _ _ _ _ Hrun HFl HFr)
      as (D & HD & _ & Hg & _).
    destruct (fem_operands_valid _ _ _ _ _ _ _ _ Hrun HFl HFr HAl He)
      as (fae & es & P & Q & B & Hfae & Hes & HP & HQ & HB & Hf & _).
    exists W, Nb, FaN, V, A, Area, D, fae, es, P, Q, B.
    repeat (split; [done|]).
    rewrite geometric_laplacian_stages, fem_laplacian_stages by done.
    rewrite Hg, Hf, !solve_Some.
    split; [|split; [|split]].
    + intros ev vecs -> Hlen. exists (map reciprocal ev).
      split; [done|]. by rewrite length_map.
    + by intros ->.
    + intros ev vecs -> Hlen. exists (map reciprocal ev).
      split; [done|]. by rewrite length_map.
    + by intros ->.
Qed.

(** Both portal functions hand the solver the stiffness matrix of the
    common prefix, assembled from the halved kernel output. *)
Lemma portal_stiffness (Nodes : list (point F)) (Faces : list face) :
  fsub fzero fzero = fzero →
  5 ≤ length Nodes → valid Nodes Faces → edges_valid Nodes Faces →
  ∃ W Nb FaN V A Area Mg Mf,
    prefix W Nb FaN V A Area Nodes Faces ∧
    (∀ i, i < length Nodes → sp_entry V i i = spec_V (half W) Nb i) ∧
    (∀ i j, i < length Nodes → j < length Nodes →
            sp_entry A i j = spec_A (half W) Nb i j) ∧
    geometric Nodes Faces = ([], solved (Some (Sparse A, Mg))) ∧
    fem Nodes Faces = ([], solved (Some (Dense (toarray A), Mf))).
Proof.
  intros Hz Hn Hv He.
  destruct (precomputation_valid Nodes Faces Hv)
    as (W & Nb & FaN & V & A & Area & Hrun & HWs & HNl & HNr & HFl & HFr & HAl
        & _ & HAe).
  destruct (geometric_operands_valid _ _ _ _ _ _ _ _ Hrun HFl HFr)
    as (D & _ & _ & Hg & _).
  destruct (fem_operands_valid _ _ _ _ _ _ _ _ Hrun HFl HFr HAl He)
    as (fae & es & P & Q & B & _ & _ & _ & _ & _ & Hf & _).
  exists W, Nb, FaN, V, A, Area, (Dense (toarray D)), (Dense (toarray B)).
  split; [done|]. split; [|split; [by apply stiffness_entry|]].
  - intros i Hi.
    destruct (gen_V_entries Faces (half W) Nb (length Nodes))
      as (V' & HV' & _ & HVe); [done..|].
    rewrite (run_gen_V _ _ _ _ _ _ _ _ _ _ _ Hrun) in HV'.
    injection HV' as <-. unfold sp_entry. rewrite HVe.
    by rewrite decide_True by done.
  - rewrite geometric_laplacian_stages, fem_laplacian_stages by done.
    by rewrite Hg, Hf.
Qed.

(** C3. The stiffness assembler: for an n-by-n weight matrix [W] and a
    neighbour map with one in-range list per node, [gen_V] returns the
    diagonal matrix with [V[i] = (sum of W[i,j] for j in Neighbor[i]) / 3],
    and [V - W] is the matrix [A = diag(V) - W] of the specification, entry
    by entry.  Both portal functions build this one matrix, from the same
    halved kernel output, and hand it to the solver: the geometric one as it
    is, the FEM one as a dense array. *)
Theorem stiffness_matrix :
  fsub fzero fzero = fzero →
  (∀ (Meshes : list face) (W : spmatrix F) (Neighbor : list (list nat)) n,
     sp_shape W = (n, n) → length Neighbor = n →
     Forall (Forall (λ j, j < n)) Neighbor →
     ∃ V A, gen_V Meshes W Neighbor = Some V ∧ sp_sub V W = Some A ∧
            sp_shape A = (n, n) ∧
            (∀ i, i < n → sp_entry V i i = spec_V W Neighbor i) ∧
            (∀ i j, i ≠ j → sp_entry V i j = fzero) ∧
            (∀ i j, i < n → j < n → sp_entry A i j = spec_A W Neighbor i j)) ∧
  (∀ (Nodes : list (point F)) (Faces : list face),
     5 ≤ length Nodes → valid Nodes Faces → edges_valid Nodes Faces →
     ∃ W Nb FaN V A Area Mg Mf,
       prefix W Nb FaN V A Area Nodes Faces ∧
       (∀ i j, i < length Nodes → j < length Nodes →
               sp_entry A i j = spec_A (half W) Nb i j) ∧
       geometric Nodes Faces = ([], solved (Some (Sparse A, Mg))) ∧
       fem Nodes Faces = ([], solved (Some (Dense (toarray A), Mf)))).
Proof.
  intros Hz. split.
  - intros Meshes W Nb n HW Hlen Hnb.
    destruct (gen_V_entries Meshes W Nb n HW Hlen Hnb)
      as (V & HV & HVs & HVe).
    assert (sp_shape V = sp_shape W) as Hsame by (by rewrite HVs).
    exists V, (SpMatrix (sp_shape V)
                 (merge (sp_binop fsub) (sp_data V) (sp_data W))).
    split; [done|]. split; [by apply sp_sub_Some|]. split; [done|].
    split; [|split].
    + intros i Hi. unfold sp_entry. rewrite HVe.
      by rewrite decide_True by done.
    + intros i j Hij. unfold sp_entry. rewrite HVe.
      by rewrite decide_False by tauto.
    + apply stiffness_entry; [done|]. intros i j. cbn [sp_data].
      by rewrite sp_binop_lookup, HVe.
  - intros Nodes Faces Hn Hv He.
    destruct (portal_stiffness Nodes Faces Hz Hn Hv He)
      as (W & Nb & FaN & V & A & Area & Mg & Mf & Hrun & _ & HA & Hg & Hf).
    by exists W, Nb, FaN, V, A, Area, Mg, Mf.
Qed.

(** C4. From five nodes on, on a valid mesh, the mass matrix the geometric
    portal function hands to the solver is the dense form of the matrix
    [masses] returns: [D[i][i]] is the sum of [Area[f]] over the faces at
    node [i], divided by 3, and [D[i][j]] is zero off the diagonal. *)
Theorem geometric_mass_matrix (Nodes : list (point F)) (Faces : list face) :
  5 ≤ length Nodes → valid Nodes Faces →
  ∃ W Nb FaN V A Area D,
    prefix W Nb FaN V A Area Nodes Faces ∧
    masses Nodes Area FaN = Some D ∧
    geometric Nodes Faces
    = ([], solved (Some (Sparse A, Dense (toarray D)))) ∧
    length (toarray D) = length Nodes ∧
    ∀ i j, i < length Nodes → j < length Nodes →
           dense_get (toarray D) i j = Some (spec_D Area FaN i j).
Proof.
  clear find_faces_at_edges find_edges.
  intros Hn Hv.
  destruct (precomputation_valid Nodes Faces Hv)
    as (W & Nb & FaN & V & A & Area & Hrun & _ & _ & _ & HFl & HFr & _).
  destruct (geometric_operands_valid _ _ _ _ _ _ _ _ Hrun HFl HFr)
    as (D & HD & HDs & Hg & HDe).
  exists W, Nb, FaN, V, A, Area, D.
  split; [done|]. split; [done|]. split; [|split].
  - rewrite geometric_laplacian_stages by done. by rewrite Hg.
  - unfold toarray. by rewrite length_map, length_seq, HDs.
  - intros i j Hi Hj. rewrite toarray_nth by (rewrite HDs; done).
    f_equal. unfold sp_entry, spec_D. rewrite HDe.
    destruct (decide (i = j)) as [->|Hij].
    + rewrite decide_True by done. unfold spec_D.
      by rewrite (decide_True (P := j = j)).
    + by rewrite decide_False by tauto.
Qed.

(** C5. From five nodes on, on a valid mesh with a valid edge list, the
    mass matrix the FEM portal function hands to the solver is the dense
    form of [B = P + Q]: [P[i,j]] is the sum of [Area[f]] over the faces the
    dictionary gives for [(i,j)], divided by 12, at exactly the index pairs
    the edge list holds, and zero elsewhere; [Q] is diagonal with [Q[i]]
    the sum of [Area[f]] over the faces at node [i], divided by 6. *)
Theorem fem_mass_matrix (Nodes : list (point F)) (Faces : list face) :
  fadd fzero fzero = fzero →
  5 ≤ length Nodes → valid Nodes Faces → edges_valid Nodes Faces →
  ∃ W Nb FaN V A Area fae es P Q B,
    prefix W Nb FaN V A Area Nodes Faces ∧
    find_faces_at_edges Faces = Some fae ∧
    find_edges Faces = Some es ∧
    gen_P es fae Area (length Nodes) = Some P ∧
    gen_Q es fae Area (length Nodes) Nb FaN = Some Q ∧
    sp_add P Q = Some B ∧
    fem Nodes Faces
    = ([], solved (Some (Dense (toarray A), Dense (toarray B)))) ∧
    ∀ i j, i < length Nodes → j < length Nodes →
           sp_entry P i j = spec_P es fae Area i j ∧
           sp_entry Q i j = spec_Q Area FaN i j ∧
           dense_get (toarray B) i j
           = Some (fadd (spec_P es fae Area i j) (spec_Q Area FaN i j)).
Proof.
  intros Hz Hn Hv He.
  destruct (precomputation_valid Nodes Faces Hv)
    as (W & Nb & FaN & V & A & Area & Hrun & _ & _ & _ & HFl & HFr & HAl & _).
  destruct (fem_operands_valid _ _ _ _ _ _ _ _ Hrun HFl HFr HAl He)
    as (fae & es & P & Q & B & Hfae & Hes & HP & HQ & HB & Hf & HBs
        & HPe & HQe & HBe).
  exists W, Nb, FaN, V, A, Area, fae, es, P, Q, B.
  repeat (split; [done|]). split.
  - rewrite fem_laplacian_stages by done. by rewrite Hf.
  - intros i j Hi Hj.
    assert (sp_entry P i j = spec_P es fae Area i j) as HPij.
    { unfold sp_entry. rewrite HPe. unfold spec_P.
      by destruct (decide ((i, j) ∈ es)). }
    assert (sp_entry Q i j = spec_Q Area FaN i j) as HQij.
    { unfold sp_entry. rewrite HQe. unfold spec_Q.
      destruct (decide (i = j)) as [->|Hij].
      - rewrite decide_True by done. unfold spec_Q.
        by rewrite (decide_True (P := j = j)).
      - by rewrite decide_False by tauto. }
    split; [done|]. split; [done|].
    rewrite toarray_nth by (rewrite HBs; done). f_equal.
    rewrite <- HPij, <- HQij. unfold sp_entry. rewrite HBe.
    by destruct (sp_data P !! (i, j)), (sp_data Q !! (i, j)).
Qed.

(** C6. From five nodes on, on a valid mesh with a valid edge list, each
    portal function calls the solver once, with [k=3], on the stiffness
    matrix and its mass matrix ([D] for the geometric one, [B = P + Q] for
    the FEM one), and returns the reciprocals of the eigenvalues the solver
    returned, in the solver's order; when the solver raises, so does the
    portal function. *)
Theorem eigensolve_reciprocal (Nodes : list (point F)) (Faces : list face) :
  5 ≤ length Nodes → valid Nodes Faces → edges_valid Nodes Faces →
  ∃ W Nb FaN V A Area D fae es P Q B,
    prefix W Nb FaN V A Area Nodes Faces ∧
    masses Nodes Area FaN = Some D ∧
    find_faces_at_edges Faces = Some fae ∧
    find_edges Faces = Some es ∧
    gen_P es fae Area (length Nodes) = Some P ∧
    gen_Q es fae Area (length Nodes) Nb FaN = Some Q ∧
    sp_add P Q = Some B ∧
    geometric Nodes Faces
    = ([], (λ r, EigArray (map reciprocal r.1))
             <$> eigs (Sparse A) 3 (Dense (toarray D))) ∧
    fem Nodes Faces
    = ([], (λ r, EigArray (map reciprocal r.1))
             <$> eigs (Dense (toarray A)) 3 (Dense (toarray B))).
Proof.
  intros Hn Hv He.
  destruct (precomputation_valid Nodes Faces Hv)
    as (W & Nb & FaN & V & A & Area & Hrun & _ & _ & _ & HFl & HFr & HAl & _).
  destruct (geometric_operands_valid _ _ _ _ _ _ _ _ Hrun HFl HFr)
    as (D & HD & _ & Hg & _).
  destruct (fem_operands_valid _ _ _ _ _ _ _ _ Hrun HFl HFr HAl He)
    as (fae & es & P & Q & B & Hfae & Hes & HP & HQ & HB & Hf & _).
  exists W, Nb, FaN, V, A, Area, D, fae, es, P, Q, B.
  repeat (split; [done|]).
  rewrite geometric_laplacian_stages, fem_laplacian_stages by done.
  by rewrite Hg, Hf, !solve_Some.
Qed.

End OneSolver.
Section TwoInvocations.

(** The solver at the first and at the second invocation. *)
Variables eigs1 eigs2
  : operand F → nat → operand F → option (list C * list (list C)).
Variable close : C → C → Prop.

Local Abbreviation sentinel :=
  ([too_small], Some (IntArray [-1; -1; -1; -1; -1]%Z)).

(** Two outcomes that are the reciprocals of two answers of the solver agree
    exactly when the answers do. *)
Lemma same_outcome_answers (r1 r2 : option (list C * list (list C))) :
  same_outcome close
    ([], (λ r, EigArray (map reciprocal r.1)) <$> r1)
    ([], (λ r, EigArray (map reciprocal r.1)) <$> r2)
  ↔ same_answer close reciprocal r1 r2.
Proof.
  unfold same_outcome, same_answer. cbn [fst snd].
  destruct r1 as [[ev1 v1]|], r2 as [[ev2 v2]|]; cbn [fmap option_fmap option_map].
  - split.
    + intros [_ Hsame]. inversion Hsame; subst. by constructor.
    + intros Hsame. inversion Hsame; subst. split; [done|]. by constructor.
  - split; [intros [_ Hsame] | intros Hsame]; inversion Hsame.
  - split; [intros [_ Hsame] | intros Hsame]; inversion Hsame.
  - split; [intros _ | intros _; split; [done|]]; constructor.
Qed.


End TwoInvocations.
End PortalFacts.

(** * Exact arithmetic: the area and the halved weights *)

Section RealFacts.
Local Open Scope R_scope.
Implicit Types (p q : point R) (a b c : R).

Lemma norm_vsub_sym p q : norm (vsub p q) = norm (vsub q p).
Proof. unfold norm, vsub. simpl. f_equal. ring. Qed.

Lemma heron_radicand_swap a b c : heron_radicand a b c = heron_radicand a c b.
Proof. unfold heron_radicand. simpl. field. Qed.

Lemma heron_radicand_rotate a b c :
  heron_radicand a b c = heron_radicand b c a.
Proof. unfold heron_radicand. simpl. field. Qed.

Lemma heron_swap p0 p1 p2 : heron p1 p0 p2 = heron p0 p1 p2.
Proof.
  unfold heron, side_lengths. f_equal.
  rewrite (norm_vsub_sym p1 p0), (norm_vsub_sym p0 p2), (norm_vsub_sym p2 p1).
  apply heron_radicand_swap.
Qed.

Lemma heron_rotate p0 p1 p2 : heron p1 p2 p0 = heron p0 p1 p2.
Proof.
  unfold heron, side_lengths. f_equal. symmetry. apply heron_radicand_rotate.
Qed.

(** The rearrangements of three indices. *)
Lemma three_indices (a b c x y z : nat) :
  [x; y; z] ≡ₚ [a; b; c] →
  (x, y, z) = (a, b, c) ∨ (x, y, z) = (a, c, b) ∨ (x, y, z) = (b, a, c) ∨
  (x, y, z) = (b, c, a) ∨ (x, y, z) = (c, a, b) ∨ (x, y, z) = (c, b, a).
Proof.
  intros HP.
  assert (x ∈ [a; b; c]) as Hx by (rewrite <- HP; apply elem_of_cons; tauto).
  rewrite !elem_of_cons, elem_of_nil in Hx.
  destruct Hx as [-> | [-> | [-> | []]]].
  - apply Permutation_cons_inv in HP.
    destruct (Permutation_length_2_inv HP) as [[= -> ->]|[= -> ->]]; tauto.
  - assert ([y; z] ≡ₚ [a; c]) as HP'.
    { apply (Permutation_cons_inv (a := b)). rewrite HP. apply perm_swap. }
    destruct (Permutation_length_2_inv HP') as [[= -> ->]|[= -> ->]]; tauto.
  - assert ([y; z] ≡ₚ [a; b]) as HP'.
    { apply (Permutation_cons_inv (a := c)). rewrite HP.
      change ([a; b; c] ≡ₚ [c] ++ [a; b]). apply Permutation_app_comm
        with (l := [a; b]). }
    destruct (Permutation_length_2_inv HP') as [[= -> ->]|[= -> ->]]; tauto.
Qed.

Lemma triangle_area_rearranged (Nodes : list (point R)) (t t' : face) :
  [t'.1.1; t'.1.2; t'.2] ≡ₚ [t.1.1; t.1.2; t.2] →
  triangle_area Nodes t' = triangle_area Nodes t.
Proof.
  destruct t as [[i j] k], t' as [[x y] z]. simpl. intros HP.
  unfold triangle_area. simpl.
  destruct (three_indices _ _ _ _ _ _ HP)
    as [[= -> -> ->]|[[= -> -> ->]|[[= -> -> ->]|[[= -> -> ->]|[[= -> -> ->]
       |[= -> -> ->]]]]]];
    destruct (Nodes !! i) as [p0|], (Nodes !! j) as [p1|],
      (Nodes !! k) as [p2|]; simpl; try reflexivity; f_equal.
  - by rewrite <- (heron_rotate p0 p1 p2), heron_swap, heron_rotate,
      heron_rotate.
  - apply heron_swap.
  - apply heron_rotate.
  - by rewrite heron_rotate, heron_rotate.
  - by rewrite heron_swap, heron_rotate.
Qed.

Lemma rigid_distance (M : point R * point R * point R) (tr p q : point R) :
  rotation M →
  norm (vsub (rigid M tr p) (rigid M tr q)) = norm (vsub p q).
Proof.
  destruct M as [[[[m11 m12] m13] [[m21 m22] m23]] [[m31 m32] m33]].
  destruct tr as [[t1 t2] t3], p as [[p1 p2] p3], q as [[q1 q2] q3].
  unfold rotation, column, dot. simpl.
  intros (H11 & H22 & H33 & H12 & H13 & H23 & _).
  unfold norm, vsub, rigid, apply_matrix, dot. simpl. f_equal.
  set (d1 := p1 - q1). set (d2 := p2 - q2). set (d3 := p3 - q3).
  transitivity
    (d1 * d1 * (m11 * m11 + m21 * m21 + m31 * m31)
     + d2 * d2 * (m12 * m12 + m22 * m22 + m32 * m32)
     + d3 * d3 * (m13 * m13 + m23 * m23 + m33 * m33)
     + 2 * d1 * d2 * (m11 * m12 + m21 * m22 + m31 * m32)
     + 2 * d1 * d3 * (m11 * m13 + m21 * m23 + m31 * m33)
     + 2 * d2 * d3 * (m12 * m13 + m22 * m23 + m32 * m33)).
  - unfold d1, d2, d3. ring.
  - rewrite H11, H22, H33, H12, H13, H23. ring.
Qed.

Lemma triangle_area_rigid (M : point R * point R * point R) (tr : point R)
    (Nodes : list (point R)) (t : face) :
  rotation M →
  triangle_area (rigid M tr <$> Nodes) t = triangle_area Nodes t.
Proof.
  intros HM. unfold triangle_area. rewrite !list_lookup_fmap.
  destruct (Nodes !! t.1.1) as [p0|]; [|done].
  destruct (Nodes !! t.1.2) as [p1|]; [|done].
  destruct (Nodes !! t.2) as [p2|]; [|done]. simpl. f_equal.
  unfold heron, side_lengths. by rewrite !rigid_distance.
Qed.

(** C8, as the code has it.  In exact arithmetic the area of a triangle is
    the same for every order of its three indices, and the areas of a mesh
    are the same after a rotation followed by a translation of all the
    nodes: the area depends on the three pairwise distances only.  (The
    binary64 value depends on the order of the indices.) *)
Theorem area_invariance :
  (∀ (Nodes : list (point R)) (t t' : face),
     [t'.1.1; t'.1.2; t'.2] ≡ₚ [t.1.1; t.1.2; t.2] →
     triangle_area Nodes t' = triangle_area Nodes t) ∧
  (∀ (Nodes : list (point R)) (Meshes Meshes' : list face),
     Forall2 (λ t' t : face, [t'.1.1; t'.1.2; t'.2] ≡ₚ [t.1.1; t.1.2; t.2])
       Meshes' Meshes →
     area Nodes Meshes' = area Nodes Meshes) ∧
  (∀ (M : point R * point R * point R) (tr : point R)
     (Nodes : list (point R)) (Meshes : list face),
     rotation M →
     area (rigid M tr <$> Nodes) Meshes = area Nodes Meshes).
Proof.
  split; [|split].
  - exact triangle_area_rearranged.
  - intros Nodes Meshes Meshes' HP. unfold area.
    apply Forall2_mapM_ext. eapply Forall2_impl; [exact HP|].
    intros t' t. apply triangle_area_rearranged.
  - intros M tr Nodes Meshes HM. unfold area. apply mapM_ext.
    intros t. by apply triangle_area_rigid.
Qed.

(** ** The halved weights *)

Lemma foldl_halved (g : nat → R) (l : list nat) : ∀ acc,
  foldl Rplus (acc / 2) (map (λ j, g j / 2) l)
  = foldl Rplus acc (map g l) / 2.
Proof.
  induction l as [|x l IH]; intros acc; simpl; [done|].
  rewrite <- IH. f_equal. field.
Qed.

Lemma sum_over_halved (g : nat → R) (l : list nat) :
  sum_over (λ j, g j / 2) l = sum_over g l / 2.
Proof.
  unfold sum_over, pysum. simpl. rewrite <- foldl_halved. f_equal. field.
Qed.

Lemma sp_entry_halved (W : spmatrix R) (i j : nat) :
  sp_entry (sp_div W (of_int 2)) i j = sp_entry W i j / 2.
Proof.
  unfold sp_entry. rewrite sp_div_lookup.
  destruct (sp_data W !! (i, j)); simpl; [done | field].
Qed.

Lemma spec_V_halved (W : spmatrix R) (Nb : list (list nat)) (i : nat) :
  spec_V (sp_div W (of_int 2)) Nb i = spec_V W Nb i / 2.
Proof.
  unfold spec_V.
  replace (sum_over (sp_entry (sp_div W (of_int 2)) i)
             (default [] (Nb !! i)))
    with (sum_over (λ j, sp_entry W i j / 2) (default [] (Nb !! i))).
  - rewrite sum_over_halved. simpl. field.
  - unfold sum_over. f_equal. apply map_ext. intros j.
    symmetry. apply sp_entry_halved.
Qed.

Lemma spec_A_halved (W : spmatrix R) (Nb : list (list nat)) (i j : nat) :
  spec_A (sp_div W (of_int 2)) Nb i j = spec_A W Nb i j / 2.
Proof.
  unfold spec_A. rewrite sp_entry_halved, spec_V_halved.
  destruct (decide (i = j)); simpl; field.
Qed.

(** C10, as the code has it.  In both portal functions the kernel's matrix
    is halved before the assembly: [gen_V] and [V - W] are run on [W/2], in
    any arithmetic, and the stiffness matrix handed to the solver is
    [diag(V) - W] computed from [W/2].  In exact arithmetic that matrix is,
    entry by entry, half of [diag(V) - W] computed from the kernel's matrix
    as supplied, and the diagonal of [V] half of the specification's [V]. *)
Theorem halved_weights :
  (∀ (F : Type) (SF : Scalar F) (C : Type) (reciprocal : C → C)
     (cotangent_kernel : list (point F) → list face → option (spmatrix F))
     (find_neighbors find_faces_at_vertices
        : list face → nat → option (list (list nat)))
     (find_faces_at_edges : list face → option (gmap edge (list nat)))
     (find_edges : list face → option (list edge))
     (eigs : operand F → nat → operand F → option (list C * list (list C)))
     (Nodes : list (point F)) (Faces : list face),
     fsub fzero fzero = (fzero : F) →
     (5 ≤ length Nodes)%nat →
     valid_mesh cotangent_kernel find_neighbors find_faces_at_vertices
       Nodes Faces →
     valid_edges find_faces_at_edges find_edges Nodes Faces →
     ∃ W Nb FaN V A Area Mg Mf,
       prefix_run cotangent_kernel find_neighbors find_faces_at_vertices
         Nodes Faces W Nb FaN V A Area ∧
       gen_V Faces (sp_div W (of_int 2)) Nb = Some V ∧
       sp_sub V (sp_div W (of_int 2)) = Some A ∧
       (∀ i, (i < length Nodes)%nat →
             sp_entry V i i = spec_V (sp_div W (of_int 2)) Nb i) ∧
       (∀ i j, (i < length Nodes)%nat → (j < length Nodes)%nat →
               sp_entry A i j = spec_A (sp_div W (of_int 2)) Nb i j) ∧
       geometric_laplacian C reciprocal cotangent_kernel find_neighbors
         find_faces_at_vertices eigs Nodes Faces
       = ([], solve C reciprocal eigs (Some (Sparse A, Mg))) ∧
       fem_laplacian C reciprocal cotangent_kernel find_neighbors
         find_faces_at_vertices find_faces_at_edges find_edges eigs
         Nodes Faces
       = ([], solve C reciprocal eigs (Some (Dense (toarray A), Mf)))) ∧
  (∀ (C : Type) (reciprocal : C → C)
     (cotangent_kernel : list (point R) → list face → option (spmatrix R))
     (find_neighbors find_faces_at_vertices
        : list face → nat → option (list (list nat)))
     (find_faces_at_edges : list face → option (gmap edge (list nat)))
     (find_edges : list face → option (list edge))
     (eigs : operand R → nat → operand R → option (list C * list (list C)))
     (Nodes : list (point R)) (Faces : list face),
     (5 ≤ length Nodes)%nat →
     valid_mesh cotangent_kernel find_neighbors find_faces_at_vertices
       Nodes Faces →
     valid_edges find_faces_at_edges find_edges Nodes Faces →
     ∃ W Nb FaN V A Area Mg Mf,
       prefix_run cotangent_kernel find_neighbors find_faces_at_vertices
         Nodes Faces W Nb FaN V A Area ∧
       (∀ i, (i < length Nodes)%nat → sp_entry V i i = spec_V W Nb i / 2) ∧
       (∀ i j, (i < length Nodes)%nat → (j < length Nodes)%nat →
               sp_entry A i j = spec_A W Nb i j / 2) ∧
       geometric_laplacian C reciprocal cotangent_kernel find_neighbors
         find_faces_at_vertices eigs Nodes Faces
       = ([], solve C reciprocal eigs (Some (Sparse A, Mg))) ∧
       fem_laplacian C reciprocal cotangent_kernel find_neighbors
         find_faces_at_vertices find_faces_at_edges find_edges eigs
         Nodes Faces
       = ([], solve C reciprocal eigs (Some (Dense (toarray A), Mf)))).
Proof.
  split.
  - intros F SF C reciprocal cotangent_kernel find_neighbors
      find_faces_at_vertices find_faces_at_edges find_edges eigs Nodes Faces
      Hz Hn Hv He.
    destruct (portal_stiffness C reciprocal cotangent_kernel find_neighbors
                find_faces_at_vertices find_faces_at_edges find_edges eigs
                Nodes Faces Hz Hn Hv He)
      as (W & Nb & FaN & V & A & Area & Mg & Mf & Hrun & HV & HA & Hg & Hf).
    exists W, Nb, FaN, V, A, Area, Mg, Mf.
    split; [done|].
    split; [exact (run_gen_V _ _ _ _ _ _ _ _ _ _ _ Hrun)|].
    split; [exact (run_stiffness _ _ _ _ _ _ _ _ _ _ _ Hrun)|].
    done.
  - intros C reciprocal cotangent_kernel find_neighbors
      find_faces_at_vertices find_faces_at_edges find_edges eigs Nodes Faces
      Hn Hv He.
    assert (fsub fzero fzero = (fzero : R)) as Hz by (simpl; ring).
    destruct (portal_stiffness C reciprocal cotangent_kernel find_neighbors
                find_faces_at_vertices find_faces_at_edges find_edges eigs
                Nodes Faces Hz Hn Hv He)
      as (W & Nb & FaN & V & A & Area & Mg & Mf & Hrun & HV & HA & Hg & Hf).
    exists W, Nb, FaN, V, A, Area, Mg, Mf.
    split; [done|]. split; [|split; [|done]].
    + intros i Hi. rewrite HV by done. apply spec_V_halved.
    + intros i j Hi Hj. rewrite HA by done. apply spec_A_halved.
Qed.

End RealFacts.

(** * The sample mesh satisfies the contracts *)

Lemma sample_valid_mesh {F : Type} `{Scalar F} (Nodes : list (point F)) :
  length Nodes = 8 → Sample.valid Nodes Sample.faces.
Proof.
  intros Hlen. unfold valid_mesh. rewrite Hlen. split; [|split; [|split]].
  - apply (bool_decide_unpack _). vm_compute. exact I.
  - eexists. split; [reflexivity|]. simpl. by rewrite Hlen.
  - eexists. split; [reflexivity|]. split; [reflexivity|].
    apply (bool_decide_unpack _). vm_compute. exact I.
  - eexists. split; [reflexivity|]. split; [reflexivity|].
    apply (bool_decide_unpack _). vm_compute. exact I.
Qed.

Lemma sample_valid_edges {F : Type} (Nodes : list (point F)) :
  length Nodes = 8 → Sample.edges_valid Nodes Sample.faces.
Proof.
  intros Hlen. unfold valid_edges. rewrite Hlen.
  eexists _, _. split; [reflexivity|]. split; [reflexivity|].
  vm_compute remove_dups.
  repeat (apply Forall_cons; split;
    [split; [simpl; lia|]; split; [simpl; lia|];
     eexists; split; [vm_compute; reflexivity|];
     apply (bool_decide_unpack _); vm_compute; exact I |]).
  apply Forall_nil_2.
Qed.

(** The sample solver returns the three values it is asked for. *)
Lemma sample_solver_returns_3 (A M : operand float) :
  ∃ ev vecs, Sample.quotient_solver A 3 M = Some (ev, vecs) ∧ length ev = 3.
Proof.
  eexists _, _. split; [reflexivity|].
  rewrite length_take, length_app, repeat_length. lia.
Qed.

(** In binary64 an unstored zero stays zero under [-] and [+]. *)
Lemma float_sub_zero : fsub fzero fzero = (fzero : float).
Proof. reflexivity. Qed.

Lemma float_add_zero : fadd fzero fzero = (fzero : float).
Proof. reflexivity. Qed.

(** * The theorems on the sample mesh *)

Lemma spectrum_size_witness :
  (length Sample.small_nodes < 5 ∧
   geometric_laplacian float Sample.float_reciprocal Sample.no_kernel
     Sample.no_lists Sample.no_lists Sample.no_solver
     Sample.small_nodes Sample.small_faces
   = ([too_small], Some (IntArray [-1; -1; -1; -1; -1]%Z))) ∧
  (5 ≤ length Sample.nodes ∧
   Sample.valid Sample.nodes Sample.faces ∧
   Sample.edges_valid Sample.nodes Sample.faces ∧
   ∃ l1 l2,
     Sample.geometric Sample.nodes Sample.faces = ([], Some (EigArray l1)) ∧
     length l1 = 3 ∧
     Sample.fem Sample.nodes Sample.faces = ([], Some (EigArray l2)) ∧
     length l2 = 3).
Proof.
  split.
  - split; [simpl; lia|].
    apply (proj1 (spectrum_size float Sample.float_reciprocal
             Sample.no_kernel Sample.no_lists Sample.no_lists
             Sample.find_faces_at_edges Sample.find_edges Sample.no_solver
             Sample.small_nodes Sample.small_faces)).
    simpl; lia.
  - assert (5 ≤ length Sample.nodes) as Hn by (simpl; lia).
    split; [exact Hn|].
    split; [exact (sample_valid_mesh Sample.nodes eq_refl)|].
    split; [exact (sample_valid_edges Sample.nodes eq_refl)|].
    destruct (proj2 (spectrum_size float Sample.float_reciprocal
                Sample.unit_kernel Sample.find_neighbors
                Sample.find_faces_at_vertices Sample.find_faces_at_edges
                Sample.find_edges Sample.quotient_solver
                Sample.nodes Sample.faces) Hn
                (sample_valid_mesh Sample.nodes eq_refl)
                (sample_valid_edges Sample.nodes eq_refl))
      as (W & Nb & FaN & V & A & Area & D & fae & es & P & Q & B & _ & _ & _
          & _ & _ & _ & _ & Hg & _ & Hf & _).
    destruct (sample_solver_returns_3 (Sparse A) (Dense (toarray D)))
      as (ev1 & vecs1 & Hev1 & Hlen1).
    destruct (sample_solver_returns_3 (Dense (toarray A)) (Dense (toarray B)))
      as (ev2 & vecs2 & Hev2 & Hlen2).
    destruct (Hg ev1 vecs1 Hev1 Hlen1) as (l1 & Hl1 & Hlen1').
    destruct (Hf ev2 vecs2 Hev2 Hlen2) as (l2 & Hl2 & Hlen2').
    by exists l1, l2.
Defined.

Lemma stiffness_matrix_witness :
  fsub fzero fzero = (fzero : float) ∧
  5 ≤ length Sample.nodes ∧
  Sample.valid Sample.nodes Sample.faces ∧
  Sample.edges_valid Sample.nodes Sample.faces ∧
  ∃ W Nb FaN V A Area Mg Mf,
    Sample.prefix Sample.nodes Sample.faces W Nb FaN V A Area ∧
    (∀ i j, i < length Sample.nodes → j < length Sample.nodes →
            sp_entry A i j = spec_A (sp_div W (of_int 2)) Nb i j) ∧
    Sample.geometric Sample.nodes Sample.faces
    = ([], Sample.solved (Some (Sparse A, Mg))) ∧
    Sample.fem Sample.nodes Sample.faces
    = ([], Sample.solved (Some (Dense (toarray A), Mf))).
Proof.
  split; [exact float_sub_zero|]. split; [simpl; lia|].
  split; [exact (sample_valid_mesh Sample.nodes eq_refl)|].
  split; [exact (sample_valid_edges Sample.nodes eq_refl)|].
  apply (proj2 (stiffness_matrix float Sample.float_reciprocal
           Sample.unit_kernel Sample.find_neighbors
           Sample.find_faces_at_vertices Sample.find_faces_at_edges
           Sample.find_edges Sample.quotient_solver float_sub_zero)
           Sample.nodes Sample.faces).
  - simpl; lia.
  - exact (sample_valid_mesh Sample.nodes eq_refl).
  - exact (sample_valid_edges Sample.nodes eq_refl).
Defined.

Lemma geometric_mass_matrix_witness :
  5 ≤ length Sample.nodes ∧
  Sample.valid Sample.nodes Sample.faces ∧
  ∃ W Nb FaN V A Area D,
    Sample.prefix Sample.nodes Sample.faces W Nb FaN V A Area ∧
    masses Sample.nodes Area FaN = Some D ∧
    Sample.geometric Sample.nodes Sample.faces
    = ([], Sample.solved (Some (Sparse A, Dense (toarray D)))) ∧
    length (toarray D) = length Sample.nodes ∧
    ∀ i j, i < length Sample.nodes → j < length Sample.nodes →
           dense_get (toarray D) i j = Some (spec_D Area FaN i j).
Proof.
  split; [simpl; lia|].
  split; [exact (sample_valid_mesh Sample.nodes eq_refl)|].
  apply (geometric_mass_matrix float Sample.float_reciprocal
           Sample.unit_kernel Sample.find_neighbors
           Sample.find_faces_at_vertices Sample.quotient_solver
           Sample.nodes Sample.faces).
  - simpl; lia.
  - exact (sample_valid_mesh Sample.nodes eq_refl).
Defined.

Lemma fem_mass_matrix_witness :
  fadd fzero fzero = (fzero : float) ∧
  5 ≤ length Sample.nodes ∧
  Sample.valid Sample.nodes Sample.faces ∧
  Sample.edges_valid Sample.nodes Sample.faces ∧
  ∃ W Nb FaN V A Area fae es P Q B,
    Sample.prefix Sample.nodes Sample.faces W Nb FaN V A Area ∧
    Sample.find_faces_at_edges Sample.faces = Some fae ∧
    Sample.find_edges Sample.faces = Some es ∧
    gen_P es fae Area (length Sample.nodes) = Some P ∧
    gen_Q es fae Area (length Sample.nodes) Nb FaN = Some Q ∧
    sp_add P Q = Some B ∧
    Sample.fem Sample.nodes Sample.faces
    = ([], Sample.solved (Some (Dense (toarray A), Dense (toarray B)))) ∧
    ∀ i j, i < length Sample.nodes → j < length Sample.nodes →
           sp_entry P i j = spec_P es fae Area i j ∧
           sp_entry Q i j = spec_Q Area FaN i j ∧
           dense_get (toarray B) i j
           = Some (fadd (spec_P es fae Area i j) (spec_Q Area FaN i j)).
Proof.
  split; [exact float_add_zero|]. split; [simpl; lia|].
  split; [exact (sample_valid_mesh Sample.nodes eq_refl)|].
  split; [exact (sample_valid_edges Sample.nodes eq_refl)|].
  apply (fem_mass_matrix float Sample.float_reciprocal
           Sample.unit_kernel Sample.find_neighbors
           Sample.find_faces_at_vertices Sample.find_faces_at_edges
           Sample.find_edges Sample.quotient_solver
           Sample.nodes Sample.faces).
  - exact float_add_zero.
  - simpl; lia.
  - exact (sample_valid_mesh Sample.nodes eq_refl).
  - exact (sample_valid_edges Sample.nodes eq_refl).
Defined.

Lemma eigensolve_reciprocal_witness :
  5 ≤ length Sample.nodes ∧
  Sample.valid Sample.nodes Sample.faces ∧
  Sample.edges_valid Sample.nodes Sample.faces ∧
  ∃ W Nb FaN V A Area D fae es P Q B,
    Sample.prefix Sample.nodes Sample.faces W Nb FaN V A Area ∧
    masses Sample.nodes Area FaN = Some D ∧
    Sample.find_faces_at_edges Sample.faces = Some fae ∧
    Sample.find_edges Sample.faces = Some es ∧
    gen_P es fae Area (length Sample.nodes) = Some P ∧
    gen_Q es fae Area (length Sample.nodes) Nb FaN = Some Q ∧
    sp_add P Q = Some B ∧
    Sample.geometric Sample.nodes Sample.faces
    = ([], (λ r, EigArray (map Sample.float_reciprocal r.1))
             <$> Sample.quotient_solver (Sparse A) 3 (Dense (toarray D))) ∧
    Sample.fem Sample.nodes Sample.faces
    = ([], (λ r, EigArray (map Sample.float_reciprocal r.1))
             <$> Sample.quotient_solver (Dense (toarray A)) 3
                   (Dense (toarray B))).
Proof.
  split; [simpl; lia|].
  split; [exact (sample_valid_mesh Sample.nodes eq_refl)|].
  split; [exact (sample_valid_edges Sample.nodes eq_refl)|].
  apply (eigensolve_reciprocal float Sample.float_reciprocal
           Sample.unit_kernel Sample.find_neighbors
           Sample.find_faces_at_vertices Sample.find_faces_at_edges
           Sample.find_edges Sample.quotient_solver
           Sample.nodes Sample.faces).
  - simpl; lia.
  - exact (sample_valid_mesh Sample.nodes eq_refl).
  - exact (sample_valid_edges Sample.nodes eq_refl).
Defined.

Lemma area_without_radicand_check_witness :
  Forall (λ t : face, t.1.1 < length Sample.collinear_nodes
                      ∧ t.1.2 < length Sample.collinear_nodes
                      ∧ t.2 < length Sample.collinear_nodes)
    Sample.collinear_faces ∧
  is_Some (area Sample.collinear_nodes Sample.collinear_faces) ∧
  ∀ Area, area Sample.collinear_nodes Sample.collinear_faces = Some Area →
          length Area = length Sample.collinear_faces.
Proof.
  split; [apply (bool_decide_unpack _); vm_compute; exact I|]. split.
  - apply (proj1 (area_without_radicand_check Sample.collinear_nodes
                    Sample.collinear_faces)).
    apply (bool_decide_unpack _); vm_compute; exact I.
  - intros Area HArea.
    exact (proj1 (proj2 (area_without_radicand_check Sample.collinear_nodes
                           Sample.collinear_faces) Area HArea)).
Defined.

(** C2, the claim as stated fails.  A face on three collinear nodes whose
    binary64 radicand is negative: [area] returns, with NaN as the area of
    that face; the NaN is on the diagonal of the mass matrix handed to the
    solver, and the portal function returns an array, no error. *)
Lemma area_collinear_nan :
  let p0 := (0, 0, 0)%float in
  let p1 := (0x1.999999999999ap-3, 0, 0)%float in
  let p2 := (0x1.ccccccccccccdp-1, 0, 0)%float in
  Sample.collinear_nodes !! 0 = Some p0 ∧
  Sample.collinear_nodes !! 1 = Some p1 ∧
  Sample.collinear_nodes !! 2 = Some p2 ∧
  heron_radicand (norm (vsub p0 p1)) (norm (vsub p1 p2)) (norm (vsub p2 p0))
  = (-0x1.020c49ba5e352p-56)%float ∧
  PrimFloat.ltb
    (heron_radicand (norm (vsub p0 p1)) (norm (vsub p1 p2))
                    (norm (vsub p2 p0))) 0 = true ∧
  area Sample.collinear_nodes Sample.collinear_faces
  = Some [nan; 0x1.ffffffffffffdp-2; 0x1.0a0b02501c79cp-1]%float ∧
  (geometric_operands Sample.unit_kernel Sample.find_neighbors
     Sample.find_faces_at_vertices Sample.collinear_nodes
     Sample.collinear_faces ≫= λ ops, Some ops.2)
  = Some (Dense [[nan; 0; 0; 0; 0];
                 [0; nan; 0; 0; 0];
                 [0; 0; nan; 0; 0];
                 [0; 0; 0; 0x1.5c0756e012fbcp-2; 0];
                 [0; 0; 0; 0; 0x1.5c0756e012fbcp-2]]%float) ∧
  Sample.geometric Sample.collinear_nodes Sample.collinear_faces
  = ([], Some (EigArray [nan; nan; nan])).
Proof. repeat split; vm_compute; reflexivity. Qed.

Lemma fem_mass_mirrored_witness :
  let es := [(0, 1); (1, 0); (1, 2)] in
  let fae : gmap edge (list nat) :=
    list_to_map [((0, 1), [0]); ((1, 0), [0]); ((1, 2), [0])] in
  let Area := [1%float] in
  let FaN := [[0]; [0]; [0]] in
  ∃ P Q B,
    gen_P es fae Area 3 = Some P ∧
    gen_Q es fae Area 3 [] FaN = Some Q ∧
    sp_add P Q = Some B ∧
    1 ≠ 2 ∧ (1, 2) ∈ es ∧
    (∃ fs, fae !! (1, 2) = Some fs ∧
           sp_data P !! (1, 2)
           = Some (fdiv (sum_over (area_at Area) fs) (of_int 12)) ∧
           sp_entry B 1 2
           = fadd (fdiv (sum_over (area_at Area) fs) (of_int 12)) fzero) ∧
    (∀ a b, (a, b) ∉ es → sp_data P !! (a, b) = None) ∧
    ((2, 1) ∈ es → fae !! (2, 1) = fae !! (1, 2) →
       sp_entry B 2 1 = sp_entry B 1 2) ∧
    ((2, 1) ∉ es →
       sp_entry B 2 1 = fzero ∧
       (sp_entry B 1 2 ≠ fzero → sp_entry B 2 1 ≠ sp_entry B 1 2)).
Proof.
  intros es fae Area FaN.
  destruct (gen_P es fae Area 3) as [P|] eqn:HP; [|vm_compute in HP; done].
  destruct (gen_Q es fae Area 3 [] FaN) as [Q|] eqn:HQ;
    [|vm_compute in HQ; done].
  destruct (sp_add P Q) as [B|] eqn:HB.
  - exists P, Q, B. split; [done|]. split; [done|]. split; [done|].
    assert ((1, 2) ∈ es) as Hin.
    { unfold es. rewrite !elem_of_cons. tauto. }
    split; [lia|]. split; [exact Hin|].
    apply (fem_mass_mirrored es fae Area 3 [] FaN P Q B 1 2 HP HQ HB);
      [lia | exact Hin].
  - vm_compute in HP. vm_compute in HQ.
    injection HP as <-. injection HQ as <-. vm_compute in HB. done.
Defined.

(** C7, the claim as stated fails.  On the sample mesh the edge list holds
    [(0,1)] and not [(1,0)]: the mass matrix handed to the solver has
    [B[0][1] = (Area[1] + Area[5]) / 12] and [B[1][0] = 0]. *)
Lemma fem_mass_not_symmetric :
  ∃ es A B,
    5 ≤ length Sample.nodes ∧
    Sample.find_edges Sample.faces = Some es ∧
    (0, 1) ∈ es ∧ ((1, 0) ∉ es) ∧
    fem_operands Sample.unit_kernel Sample.find_neighbors
      Sample.find_faces_at_vertices Sample.find_faces_at_edges
      Sample.find_edges Sample.nodes Sample.faces
    = Some (Dense A, Dense B) ∧
    dense_get B 0 1 = Some 0x1.5555555555553p-4%float ∧
    dense_get B 1 0 = Some 0%float ∧
    dense_get B 0 1 ≠ dense_get B 1 0.
Proof.
  eexists _, _, _. split; [simpl; lia|].
  split; [vm_compute; reflexivity|].
  split; [apply (bool_decide_unpack _); vm_compute; exact I|].
  split; [apply (bool_decide_unpack _); vm_compute; exact I|].
  split; [vm_compute; reflexivity|].
  split; [vm_compute; reflexivity|].
  split; [vm_compute; reflexivity|].
  vm_compute. intros [= Heq].
Qed.

Lemma area_invariance_witness :
  [1; 2; 0] ≡ₚ [0; 1; 2] ∧
  rotation Sample.quarter_turn ∧
  triangle_area Sample.real_nodes (1, 2, 0)
  = triangle_area Sample.real_nodes (0, 1, 2) ∧
  area (rigid Sample.quarter_turn Sample.shift <$> Sample.real_nodes)
    Sample.faces
  = area Sample.real_nodes Sample.faces.
Proof.
  assert ([1; 2; 0] ≡ₚ [0; 1; 2]) as HP.
  { symmetry. exact (Permutation_cons_append [1; 2] 0). }
  assert (rotation Sample.quarter_turn) as HM.
  { unfold rotation, Sample.quarter_turn, column, dot, determinant. simpl.
    repeat split; lra. }
  split; [exact HP|]. split; [exact HM|]. split.
  - exact (proj1 area_invariance Sample.real_nodes (0, 1, 2) (1, 2, 0) HP).
  - exact (proj2 (proj2 area_invariance) Sample.quarter_turn Sample.shift
             Sample.real_nodes Sample.faces HM).
Defined.

(** The reversed solver's answer is a rearrangement of the sample
    solver's. *)
Lemma reversed_solver_same_answer (A M : operand float) :
  same_answer eq Sample.float_reciprocal
    (Sample.quotient_solver A 3 M) (Sample.reversed_solver A 3 M).
Proof.
  unfold same_answer, Sample.reversed_solver, Sample.quotient_solver.
  cbn [mbind option_bind]. constructor. cbn [fst].
  eexists. split.
  - apply fmap_Permutation. symmetry. apply reverse_Permutation.
  - apply Forall_Forall2_diag, Forall_forall. done.
Qed.


(** No rearrangement of [l1] is entrywise close to [l2] when the first
    entry of [l2] is close to no entry of [l1]. *)
Lemma agree_head {C : Type} (close : C → C → Prop) (l1 l2 : list C) (y : C) :
  agree close l1 (y :: l2) → ∃ x, x ∈ l1 ∧ close x y.
Proof.
  intros (l & Hperm & Hclose). inversion Hclose as [|x ? l' ? Hxy _]; subst.
  exists x. split; [|done]. rewrite Hperm. apply elem_of_cons. tauto.
Qed.


Lemma halved_weights_witness :
  fsub fzero fzero = (fzero : float) ∧
  5 ≤ length Sample.nodes ∧
  Sample.valid Sample.nodes Sample.faces ∧
  Sample.edges_valid Sample.nodes Sample.faces ∧
  (∃ W Nb FaN V A Area Mg Mf,
     Sample.prefix Sample.nodes Sample.faces W Nb FaN V A Area ∧
     gen_V Sample.faces (sp_div W (of_int 2)) Nb = Some V ∧
     sp_sub V (sp_div W (of_int 2)) = Some A ∧
     (∀ i, i < length Sample.nodes →
           sp_entry V i i = spec_V (sp_div W (of_int 2)) Nb i) ∧
     (∀ i j, i < length Sample.nodes → j < length Sample.nodes →
             sp_entry A i j = spec_A (sp_div W (of_int 2)) Nb i j) ∧
     Sample.geometric Sample.nodes Sample.faces
     = ([], Sample.solved (Some (Sparse A, Mg))) ∧
     Sample.fem Sample.nodes Sample.faces
     = ([], Sample.solved (Some (Dense (toarray A), Mf)))) ∧
  5 ≤ length Sample.real_nodes ∧
  Sample.valid Sample.real_nodes Sample.faces ∧
  Sample.edges_valid Sample.real_nodes Sample.faces ∧
  ∃ W Nb FaN V A Area Mg Mf,
    Sample.prefix Sample.real_nodes Sample.faces W Nb FaN V A Area ∧
    (∀ i, i < length Sample.real_nodes →
          sp_entry V i i = (spec_V W Nb i / 2)%R) ∧
    (∀ i j, i < length Sample.real_nodes → j < length Sample.real_nodes →
            sp_entry A i j = (spec_A W Nb i j / 2)%R) ∧
    geometric_laplacian R Rinv Sample.unit_kernel Sample.find_neighbors
      Sample.find_faces_at_vertices Sample.ones_solver
      Sample.real_nodes Sample.faces
    = ([], solve R Rinv Sample.ones_solver (Some (Sparse A, Mg))) ∧
    fem_laplacian R Rinv Sample.unit_kernel Sample.find_neighbors
      Sample.find_faces_at_vertices Sample.find_faces_at_edges
      Sample.find_edges Sample.ones_solver Sample.real_nodes Sample.faces
    = ([], solve R Rinv Sample.ones_solver (Some (Dense (toarray A), Mf))).
Proof.
  split; [exact float_sub_zero|]. split; [simpl; lia|].
  split; [exact (sample_valid_mesh Sample.nodes eq_refl)|].
  split; [exact (sample_valid_edges Sample.nodes eq_refl)|].
  split.
  { apply (proj1 halved_weights float float_scalar float
             Sample.float_reciprocal Sample.unit_kernel Sample.find_neighbors
             Sample.find_faces_at_vertices Sample.find_faces_at_edges
             Sample.find_edges Sample.quotient_solver
             Sample.nodes Sample.faces).
    - exact float_sub_zero.
    - simpl; lia.
    - exact (sample_valid_mesh Sample.nodes eq_refl).
    - exact (sample_valid_edges Sample.nodes eq_refl). }
  split; [simpl; lia|].
  split; [exact (sample_valid_mesh Sample.real_nodes eq_refl)|].
  split; [exact (sample_valid_edges Sample.real_nodes eq_refl)|].
  apply (proj2 halved_weights R Rinv Sample.unit_kernel Sample.find_neighbors
           Sample.find_faces_at_vertices Sample.find_faces_at_edges
           Sample.find_edges Sample.ones_solver
           Sample.real_nodes Sample.faces).
  - simpl; lia.
  - exact (sample_valid_mesh Sample.real_nodes eq_refl).
  - exact (sample_valid_edges Sample.real_nodes eq_refl).
Defined.

(** The sample mesh is valid with the weighted kernel as well. *)
Lemma sample_valid_mesh_weighted {F : Type} `{Scalar F} (w : F)
    (Nodes : list (point F)) :
  length Nodes = 8 →
  valid_mesh (Sample.weighted_kernel w) Sample.find_neighbors
    Sample.find_faces_at_vertices Nodes Sample.faces.
Proof.
  intros Hlen. unfold valid_mesh. rewrite Hlen. split; [|split; [|split]].
  - apply (bool_decide_unpack _). vm_compute. exact I.
  - eexists. split; [reflexivity|]. simpl. by rewrite Hlen.
  - eexists. split; [reflexivity|]. split; [reflexivity|].
    apply (bool_decide_unpack _). vm_compute. exact I.
  - eexists. split; [reflexivity|]. split; [reflexivity|].
    apply (bool_decide_unpack _). vm_compute. exact I.
Qed.

(** C10, the claim as stated fails.  In binary64, on the mesh of the
    module's [__main__] block with the weight [2^1022] on every side, node 0
    has four neighbours: the row sum of the kernel's matrix as supplied
    overflows, so half of the specification's formula is infinite, while the
    code sums the halved weights and stores the finite [2^1023 / 3].  With
    the weight [3 * 2^-1074] the halving rounds, and the code stores
    [3 * 2^-1074] where half of the formula is [2 * 2^-1074]. *)
Lemma halved_weights_binary64_overflow :
  let big := Sample.weighted_kernel 0x1p1022%float in
  let tiny := Sample.weighted_kernel 0x3p-1074%float in
  ∃ W Nb A W' A',
    5 ≤ length Sample.nodes ∧
    valid_mesh big Sample.find_neighbors Sample.find_faces_at_vertices
      Sample.nodes Sample.faces ∧
    valid_mesh tiny Sample.find_neighbors Sample.find_faces_at_vertices
      Sample.nodes Sample.faces ∧
    Sample.edges_valid Sample.nodes Sample.faces ∧
    Sample.find_neighbors Sample.faces (length Sample.nodes) = Some Nb ∧
    big Sample.nodes Sample.faces = Some W ∧
    (geometric_operands big Sample.find_neighbors
       Sample.find_faces_at_vertices Sample.nodes Sample.faces
       ≫= λ ops, Some ops.1) = Some (Sparse A) ∧
    sp_entry A 0 0 = 0x1.5555555555555p1021%float ∧
    fdiv (spec_A W Nb 0 0) (of_int 2) = infinity ∧
    sp_entry A 0 0 ≠ fdiv (spec_A W Nb 0 0) (of_int 2) ∧
    tiny Sample.nodes Sample.faces = Some W' ∧
    (geometric_operands tiny Sample.find_neighbors
       Sample.find_faces_at_vertices Sample.nodes Sample.faces
       ≫= λ ops, Some ops.1) = Some (Sparse A') ∧
    sp_entry A' 0 0 = 0x3p-1074%float ∧
    fdiv (spec_A W' Nb 0 0) (of_int 2) = 0x2p-1074%float ∧
    sp_entry A' 0 0 ≠ fdiv (spec_A W' Nb 0 0) (of_int 2).
Proof.
  intros big tiny. eexists _, _, _, _, _.
  split; [simpl; lia|].
  split; [exact (sample_valid_mesh_weighted _ Sample.nodes eq_refl)|].
  split; [exact (sample_valid_mesh_weighted _ Sample.nodes eq_refl)|].
  split; [exact (sample_valid_edges Sample.nodes eq_refl)|].
  split; [reflexivity|]. split; [reflexivity|].
  split; [vm_compute; reflexivity|].
  split; [vm_compute; reflexivity|].
  split; [vm_compute; reflexivity|].
  split; [vm_compute; intros [= Heq]|].
  split; [reflexivity|].
  split; [vm_compute; reflexivity|].
  split; [vm_compute; reflexivity|].
  split; [vm_compute; reflexivity|].
  vm_compute. intros [= Heq].
Qed.

(** A NaN is within no tolerance of any value. *)
Lemma nan_within_nothing (tol y : float) : ¬ Sample.within tol nan y.
Proof.
  unfold Sample.within. rewrite FloatAxioms.leb_spec, FloatAxioms.abs_spec,
    FloatAxioms.sub_spec.
  change (FloatOps.Prim2SF nan) with SpecFloat.S754_nan.
  by destruct (FloatOps.Prim2SF y), (FloatOps.Prim2SF tol).
Qed.

(** C8, the claim as stated fails.  In binary64 the first face of the sample
    mesh, nodes 0, 2 and 4, has two computed areas: with the indices in the
    order (0,2,4) the half-perimeter is ((1 + 1) + sqrt 2) / 2, in the order
    (0,4,2) it is ((sqrt 2 + 1) + 1) / 2, and the two roundings differ.  The
    face on the three collinear nodes has the computed area NaN in two of the
    six orders of its indices and 0 in the other four: the two are within no
    tolerance of each other. *)
Lemma area_order_of_indices_binary64 :
  [0; 4; 2] ≡ₚ [0; 2; 4] ∧
  triangle_area Sample.nodes (0, 2, 4) = Some 0x1.ffffffffffffdp-2%float ∧
  triangle_area Sample.nodes (0, 4, 2) = Some 0x1.ffffffffffffcp-2%float ∧
  area Sample.nodes [(0, 4, 2)] ≠ area Sample.nodes [(0, 2, 4)] ∧
  [0; 2; 1] ≡ₚ [0; 1; 2] ∧
  map (triangle_area Sample.collinear_nodes)
    [(0, 1, 2); (0, 2, 1); (1, 0, 2); (1, 2, 0); (2, 0, 1); (2, 1, 0)]
  = [Some nan; Some 0; Some 0; Some 0; Some 0; Some nan]%float ∧
  area Sample.collinear_nodes [(0, 2, 1)]
  ≠ area Sample.collinear_nodes [(0, 1, 2)] ∧
  ∀ tol x y,
    triangle_area Sample.collinear_nodes (0, 1, 2) = Some x →
    triangle_area Sample.collinear_nodes (0, 2, 1) = Some y →
    ¬ Sample.within tol x y.
Proof.
  split; [apply perm_skip, perm_swap|].
  split; [vm_compute; reflexivity|].
  split; [vm_compute; reflexivity|].
  split; [vm_compute; intros [= Heq]|].
  split; [apply perm_skip, perm_swap|].
  split; [vm_compute; reflexivity|].
  split; [vm_compute; intros [= Heq]|].
  intros tol x y Hx Hy. vm_compute in Hx. vm_compute in Hy.
  injection Hx as <-. injection Hy as <-. apply nan_within_nothing.
Qed.

(** On the sample mesh the halving identity of C10 also holds in binary64,
    entry by entry. *)
Lemma halved_weights_binary64_sample :
  ∃ W Nb A,
    Sample.unit_kernel Sample.nodes Sample.faces = Some W ∧
    Sample.find_neighbors Sample.faces 8 = Some Nb ∧
    (precomputation Sample.unit_kernel Sample.find_neighbors
       Sample.find_faces_at_vertices Sample.nodes Sample.faces
       ≫= λ r, Some r.1.1.1) = Some A ∧
    toarray A
    = map (λ i, map (λ j, fdiv (spec_A W Nb i j) (of_int 2)) (seq 0 8))
          (seq 0 8).
Proof.
  eexists _, _, _. split; [reflexivity|]. split; [reflexivity|].
  split; [vm_compute; reflexivity|]. vm_compute. reflexivity.
Qed.

(** * Further facts: when the assembly stages raise *)

Section StageErrors.
Context {F : Type} `{Scalar F}.
Implicit Types (W V A P Q D : spmatrix F) (Area : list F).

Lemma is_Some_bind_Some {S T : Type} (o : option S) (f : S → T) :
  is_Some (o ≫= λ x, Some (f x)) ↔ is_Some o.
Proof.
  destruct o as [x|]; simpl.
  - split; intros _; by eexists.
  - split; intros [y Hy]; discriminate.
Qed.

Lemma row_sums_is_Some (X : nat → nat → option F) (Index : list (list nat))
    (n : nat) :
  is_Some (row_sums X Index n)
  ↔ ∀ i, i < n → ∃ Ii, Index !! i = Some Ii
                       ∧ Forall (λ j, is_Some (X i j)) Ii.
Proof.
  unfold row_sums. rewrite mapM_is_Some, Forall_forall.
  split.
  - intros Hall i Hi.
    assert (i ∈ seq 0 n) as Hin by (apply elem_of_seq; lia).
    specialize (Hall i Hin). unfold compose in Hall.
    destruct (Index !! i) as [Ii|]; [|by destruct Hall].
    exists Ii. split; [done|]. cbn [mbind option_bind] in Hall.
    destruct (mapM (X i) Ii) as [xs|] eqn:Hxs; [|by destruct Hall].
    apply (mapM_is_Some_1 (X i)). by rewrite Hxs.
  - intros Hall i Hin. apply elem_of_seq in Hin.
    destruct (Hall i) as (Ii & HIi & HX); [lia|]. unfold compose.
    rewrite HIi. cbn [mbind option_bind].
    destruct (mapM_is_Some_2 (X i) Ii HX) as [xs ->]. by eexists.
Qed.

(** What a returned row-sum list holds. *)
Lemma row_sums_inv (X : nat → nat → option F) (Index : list (list nat))
    (n : nat) (v : list F) :
  row_sums X Index n = Some v →
  length v = n ∧
  ∀ i, i < n → ∃ Ii xs, Index !! i = Some Ii ∧ mapM (X i) Ii = Some xs
                        ∧ v !! i = Some (pysum xs).
Proof.
  unfold row_sums. intros Hv.
  pose proof (length_mapM _ _ _ Hv) as Hlen. rewrite length_seq in Hlen.
  split; [done|]. intros i Hi. apply mapM_Some in Hv.
  destruct (Forall2_lookup_l _ _ _ i i Hv) as (x & Hx & Hfx).
  { by apply lookup_seq_lt. }
  destruct (Index !! i) as [Ii|]; [|done]. cbn [mbind option_bind] in Hfx.
  destruct (mapM (X i) Ii) as [xs|] eqn:Hxs; [|done].
  cbn [mbind option_bind] in Hfx. injection Hfx as <-. by exists Ii, xs.
Qed.

Lemma sp_get_is_Some W (i j : nat) :
  is_Some (sp_get W i j) ↔ i < (sp_shape W).1 ∧ j < (sp_shape W).2.
Proof.
  unfold sp_get, in_shape. rewrite <- !Nat.ltb_lt, <- andb_true_iff.
  destruct (_ && _); split; intros Hx; try done; try (by eexists);
    by destruct Hx.
Qed.

(** X1. [gen_V] raises exactly when a node below [W.shape[0]] has no
    neighbour list, or a listed neighbour is not a column of [W]. *)
Theorem gen_V_returns_iff (Meshes : list face) W
    (Neighbor : list (list nat)) :
  is_Some (gen_V Meshes W Neighbor)
  ↔ ∀ i, i < (sp_shape W).1 →
         ∃ Ni, Neighbor !! i = Some Ni
               ∧ Forall (λ j, j < (sp_shape W).2) Ni.
Proof.
  unfold gen_V.
  transitivity (is_Some (row_sums (λ i j, sp_get W i j) Neighbor
                           (sp_shape W).1)).
  { apply is_Some_bind_Some. }
  rewrite row_sums_is_Some. split; intros Hall i Hi;
    destruct (Hall i Hi) as (Ni & HNi & Hr); exists Ni; (split; [done|]);
    (eapply Forall_impl; [exact Hr|]); intros j Hj; cbv beta in *.
  - apply sp_get_is_Some in Hj. tauto.
  - apply sp_get_is_Some. tauto.
Qed.

(** X2. [masses] raises exactly when a node has no face list, or a listed
    face is not an index of [Areas]; [gen_Q], called with the number of
    nodes, raises in exactly the same cases. *)
Theorem masses_returns_iff (Nodes : list (point F)) (Areas : list F)
    (Faces_at_Nodes : list (list nat)) (edges : list edge)
    (fae : gmap edge (list nat)) (Neighbor : list (list nat)) :
  (is_Some (masses Nodes Areas Faces_at_Nodes)
   ↔ ∀ i, i < length Nodes →
          ∃ fs, Faces_at_Nodes !! i = Some fs
                ∧ Forall (λ f, f < length Areas) fs) ∧
  (is_Some (gen_Q edges fae Areas (length Nodes) Neighbor Faces_at_Nodes)
   ↔ is_Some (masses Nodes Areas Faces_at_Nodes)).
Proof.
  assert (is_Some (masses Nodes Areas Faces_at_Nodes)
          ↔ is_Some (row_sums (λ _ j, Areas !! j) Faces_at_Nodes
                       (length Nodes))) as Hm.
  { unfold masses. apply is_Some_bind_Some. }
  split.
  - rewrite Hm, row_sums_is_Some. split; intros Hall i Hi;
      destruct (Hall i Hi) as (fs & Hfs & Hr); exists fs; (split; [done|]);
      (eapply Forall_impl; [exact Hr|]); intros f Hf; cbv beta in *.
    + by apply lookup_lt_is_Some.
    + by apply lookup_lt_is_Some.
  - rewrite Hm. unfold gen_Q. apply is_Some_bind_Some.
Qed.

(** X3. [gen_P] raises exactly when an edge of the list has an end that is
    not a node index, is not a key of the dictionary, or has a face that is
    not an index of [Area]. *)
Theorem gen_P_returns_iff (edges : list edge) (fae : gmap edge (list nat))
    Area (n : nat) :
  is_Some (gen_P edges fae Area n)
  ↔ Forall (λ e : edge, e.1 < n ∧ e.2 < n ∧
              ∃ fs, fae !! e = Some fs ∧ Forall (λ f, f < length Area) fs)
           edges.
Proof. apply gen_P_is_Some. Qed.

Lemma gen_P_shape (edges : list edge) (fae : gmap edge (list nat)) Area
    (n : nat) P :
  gen_P edges fae Area n = Some P → sp_shape P = (n, n).
Proof.
  unfold gen_P. intros HP.
  destruct (gen_P_loop _ _ _ _) as [P0|] eqn:HP0; [|done].
  injection HP as <-. simpl. by rewrite (gen_P_loop_shape _ _ _ _ _ HP0).
Qed.

(** X4. [gen_P] depends on the edge list as a set only: two lists with the
    same edges, in any order and with any repetitions, give the same
    matrix, or both raise. *)
Theorem gen_P_edge_set (edges edges' : list edge)
    (fae : gmap edge (list nat)) Area (n : nat) :
  (∀ e, e ∈ edges ↔ e ∈ edges') →
  gen_P edges fae Area n = gen_P edges' fae Area n.
Proof.
  intros Hset.
  destruct (gen_P edges fae Area n) as [P|] eqn:HP,
    (gen_P edges' fae Area n) as [P'|] eqn:HP'.
  - f_equal.
    pose proof (gen_P_shape _ _ _ _ _ HP) as Hs.
    pose proof (gen_P_shape _ _ _ _ _ HP') as Hs'.
    pose proof (gen_P_lookup _ _ _ _ _ HP) as He.
    pose proof (gen_P_lookup _ _ _ _ _ HP') as He'.
    destruct P as [sh d], P' as [sh' d']. simpl in *. subst sh sh'.
    f_equal. apply map_eq. intros [i j]. rewrite He, He'.
    destruct (decide ((i, j) ∈ edges)) as [Hin|Hin].
    + by rewrite decide_True by (by apply Hset).
    + by rewrite decide_False by (by rewrite <- Hset).
  - assert (is_Some (gen_P edges' fae Area n)) as [? Hs]; [|congruence].
    apply gen_P_is_Some.
    assert (is_Some (gen_P edges fae Area n)) as Hsome by (by rewrite HP).
    apply gen_P_is_Some in Hsome. rewrite Forall_forall in *.
    intros e He. apply Hsome. by apply Hset.
  - assert (is_Some (gen_P edges fae Area n)) as [? Hs]; [|congruence].
    apply gen_P_is_Some.
    assert (is_Some (gen_P edges' fae Area n)) as Hsome by (by rewrite HP').
    apply gen_P_is_Some in Hsome. rewrite Forall_forall in *.
    intros e He. apply Hsome. by apply Hset.
  - done.
Qed.

End StageErrors.

(** * Further facts: shapes, symmetry and empty face lists *)

Section StageShapes.
Context {F : Type} `{Scalar F}.
Implicit Types (W V A P Q D : spmatrix F) (Area : list F).

Lemma gen_V_inv (Meshes : list face) W (Neighbor : list (list nat)) V :
  gen_V Meshes W Neighbor = Some V →
  ∃ v, row_sums (λ i j, sp_get W i j) Neighbor (sp_shape W).1 = Some v ∧
       V = sp_div (setdiag (lil_matrix ((sp_shape W).1, (sp_shape W).1)) v)
             (of_int 3).
Proof.
  unfold gen_V. intros HV.
  destruct (row_sums _ Neighbor _) as [v|]; [|done].
  injection HV as <-. by exists v.
Qed.

Lemma masses_inv (Nodes : list (point F)) (Areas : list F)
    (Faces_at_Nodes : list (list nat)) D :
  masses Nodes Areas Faces_at_Nodes = Some D →
  ∃ d, row_sums (λ _ j, Areas !! j) Faces_at_Nodes (length Nodes) = Some d ∧
       D = sp_div (setdiag (lil_matrix (length Nodes, length Nodes)) d)
             (of_int 3).
Proof.
  unfold masses. intros HD.
  destruct (row_sums _ Faces_at_Nodes _) as [d|]; [|done].
  injection HD as <-. by exists d.
Qed.

Lemma gen_Q_inv (edges : list edge) (fae : gmap edge (list nat)) Area
    (n : nat) (Neighbor Faces_at_Nodes : list (list nat)) Q :
  gen_Q edges fae Area n Neighbor Faces_at_Nodes = Some Q →
  ∃ q, row_sums (λ _ k, Area !! k) Faces_at_Nodes n = Some q ∧
       Q = sp_div (setdiag (lil_matrix (n, n)) q) (of_int 6).
Proof.
  unfold gen_Q. intros HQ.
  destruct (row_sums _ Faces_at_Nodes _) as [q|]; [|done].
  injection HQ as <-. by exists q.
Qed.

Lemma diagonal_off (n : nat) (v : list F) (c : F) (i j : nat) :
  i ≠ j →
  sp_data (sp_div (setdiag (lil_matrix (n, n)) v) c) !! (i, j) = None.
Proof.
  intros Hij. rewrite sp_div_lookup. unfold setdiag, lil_matrix.
  cbn [sp_data sp_shape]. rewrite setdiag_from_lookup, decide_False by tauto.
  by rewrite lookup_empty.
Qed.

Lemma sp_sub_lookup V W A (i j : nat) :
  sp_sub V W = Some A →
  sp_data A !! (i, j) = sp_binop fsub (sp_data V !! (i, j))
                                      (sp_data W !! (i, j)).
Proof.
  unfold sp_sub. destruct (shape_eqb _ _); [|done].
  intros [= <-]. cbn [sp_data]. apply sp_binop_lookup.
Qed.

Lemma sp_sub_is_Some V W :
  is_Some (sp_sub V W) ↔ sp_shape V = sp_shape W.
Proof.
  unfold sp_sub. rewrite <- shape_eqb_true.
  destruct (shape_eqb _ _); split; intros Hx; try done; try (by eexists);
    try (by destruct Hx).
Qed.

Lemma toarray_dimensions (M : spmatrix F) :
  length (toarray M) = (sp_shape M).1 ∧
  Forall (λ row, length row = (sp_shape M).2) (toarray M).
Proof.
  unfold toarray. split.
  - by rewrite length_map, length_seq.
  - apply Forall_forall. intros row Hrow.
    apply list_elem_of_fmap in Hrow as (i & -> & _).
    by rewrite length_map, length_seq.
Qed.

(** X5. When the weight matrix is stored symmetrically, so is the
    stiffness matrix [V - W] that [gen_V] leads to: [A[i,j] = A[j,i]] for
    all index pairs. *)
Theorem stiffness_symmetric (Meshes : list face) W
    (Neighbor : list (list nat)) V A :
  (∀ i j, sp_data W !! (i, j) = sp_data W !! (j, i)) →
  gen_V Meshes W Neighbor = Some V →
  sp_sub V W = Some A →
  ∀ i j, sp_entry A i j = sp_entry A j i.
Proof.
  intros Hsym HV HA i j. unfold sp_entry.
  rewrite !(sp_sub_lookup _ _ _ _ _ HA), (Hsym i j).
  destruct (decide (i = j)) as [->|Hij]; [done|].
  destruct (gen_V_inv _ _ _ _ HV) as (v & _ & ->).
  by rewrite !diagonal_off by done.
Qed.

(** [gen_V] returns a square matrix of the row count of [W], so [V - W]
    is defined exactly when [W] is square. *)
Lemma stiffness_needs_square (Meshes : list face) W
    (Neighbor : list (list nat)) V :
  gen_V Meshes W Neighbor = Some V →
  sp_shape V = ((sp_shape W).1, (sp_shape W).1) ∧
  (is_Some (sp_sub V W) ↔ (sp_shape W).1 = (sp_shape W).2).
Proof.
  intros HV. destruct (gen_V_inv _ _ _ _ HV) as (v & _ & ->).
  split; [done|]. rewrite sp_sub_is_Some. cbn [sp_shape sp_div setdiag
    lil_matrix]. destruct (sp_shape W) as [r c]. simpl.
  split; [by intros [= ->] | by intros ->].
Qed.

(** X6. A node that lies on no face (an empty list in [Faces_at_Nodes])
    gives the mass matrix [D] a row and a column of zeros: the singular
    matrix the module's docstring warns of.  (Whenever [0/3] is the zero,
    as it is in binary64 and in exact arithmetic.) *)
Theorem unreferenced_node_zero_row (Nodes : list (point F))
    (Areas : list F) (Faces_at_Nodes : list (list nat)) D (i : nat) :
  fdiv (of_int 0) (of_int 3) = fzero →
  masses Nodes Areas Faces_at_Nodes = Some D →
  i < length Nodes →
  Faces_at_Nodes !! i = Some [] →
  ∀ j, j < length Nodes →
       dense_get (toarray D) i j = Some fzero ∧
       dense_get (toarray D) j i = Some fzero.
Proof.
  intros Hz HD Hi Hempty j Hj.
  destruct (masses_inv _ _ _ _ HD) as (d & Hd & ->).
  destruct (row_sums_inv _ _ _ _ Hd) as [Hlen Hrows].
  destruct (Hrows i Hi) as (Ii & xs & HIi & Hxs & Hdi).
  rewrite Hempty in HIi. injection HIi as <-.
  injection Hxs as <-.
  assert (sp_entry (sp_div (setdiag (lil_matrix (length Nodes, length Nodes))
                              d) (of_int 3)) i i = fzero) as Hii.
  { unfold sp_entry. rewrite sp_div_lookup, setdiag_lil_lookup by done.
    rewrite decide_True by done. rewrite Hdi. exact Hz. }
  rewrite !toarray_nth by done.
  destruct (decide (i = j)) as [->|Hij]; [by rewrite Hii|].
  unfold sp_entry. by rewrite !diagonal_off by done.
Qed.

End StageShapes.

(** * Further facts about the portal functions *)

Section PortalErrors.
Context {F : Type} `{Scalar F}.
Variable C : Type.
Variable reciprocal : C → C.
Variable cotangent_kernel : list (point F) → list face → option (spmatrix F).
Variable find_neighbors : list face → nat → option (list (list nat)).
Variable find_faces_at_vertices : list face → nat → option (list (list nat)).
Variable find_faces_at_edges : list face → option (gmap edge (list nat)).
Variable find_edges : list face → option (list edge).
Variable eigs : operand F → nat → operand F → option (list C * list (list C)).

Local Abbreviation geometric :=
  (geometric_laplacian C reciprocal cotangent_kernel find_neighbors
     find_faces_at_vertices eigs).
Local Abbreviation fem :=
  (fem_laplacian C reciprocal cotangent_kernel find_neighbors
     find_faces_at_vertices find_faces_at_edges find_edges eigs).
Local Abbreviation precomp :=
  (precomputation cotangent_kernel find_neighbors find_faces_at_vertices).
(** When the common prefix raises, both portal functions raise. *)
Lemma precomputation_None (Nodes : list (point F)) (Faces : list face) :
  5 ≤ length Nodes → precomp Nodes Faces = None →
  geometric Nodes Faces = ([], None) ∧ fem Nodes Faces = ([], None).
Proof.
  intros Hn Hpre.
  rewrite (geometric_laplacian_stages C reciprocal cotangent_kernel
             find_neighbors find_faces_at_vertices eigs) by done.
  rewrite (fem_laplacian_stages C reciprocal cotangent_kernel find_neighbors
             find_faces_at_vertices find_faces_at_edges find_edges eigs)
    by done.
  unfold geometric_operands, fem_operands. by rewrite Hpre.
Qed.

(** X7. From five nodes on, when the kernel returns a matrix that is not
    square, both portal functions raise (the subtraction [V - W] fails on
    the shapes), and print nothing. *)
Theorem nonsquare_kernel_raises (Nodes : list (point F)) (Faces : list face)
    (W : spmatrix F) :
  5 ≤ length Nodes →
  cotangent_kernel Nodes Faces = Some W →
  (sp_shape W).1 ≠ (sp_shape W).2 →
  geometric_laplacian C reciprocal cotangent_kernel find_neighbors
    find_faces_at_vertices eigs Nodes Faces = ([], None) ∧
  fem_laplacian C reciprocal cotangent_kernel find_neighbors
    find_faces_at_vertices find_faces_at_edges find_edges eigs Nodes Faces
  = ([], None).
Proof.
  intros Hn HW Hshape. apply precomputation_None; [done|].
  unfold precomputation. rewrite HW. cbn [mbind option_bind].
  destruct (find_neighbors Faces (length Nodes)) as [Nb|]; [|done].
  cbn [mbind option_bind].
  destruct (gen_V Faces (sp_div W (of_int 2)) Nb) as [V|] eqn:HV; [|done].
  cbn [mbind option_bind].
  destruct (stiffness_needs_square _ _ _ _ HV) as [_ Hsq].
  destruct (sp_sub V (sp_div W (of_int 2))) as [A|] eqn:HA; [|done].
  exfalso. apply Hshape. apply Hsq. by eexists.
Qed.

Lemma area_is_Some (Nodes : list (point F)) (Meshes : list face) :
  is_Some (area Nodes Meshes) →
  Forall (λ t : face, t.1.1 < length Nodes ∧ t.1.2 < length Nodes
                      ∧ t.2 < length Nodes) Meshes.
Proof.
  intros Hsome. apply mapM_is_Some in Hsome.
  eapply Forall_impl; [exact Hsome|]. intros t. unfold compose.
  unfold triangle_area. intros [x Hx].
  destruct (Nodes !! t.1.1) as [p0|] eqn:H0; [|done].
  destruct (Nodes !! t.1.2) as [p1|] eqn:H1; [|done].
  destruct (Nodes !! t.2) as [p2|] eqn:H2; [|done].
  repeat split; eapply lookup_lt_Some; eassumption.
Qed.

(** X8. From five nodes on, a face that names a node index outside the
    node array makes both portal functions raise, whatever the
    collaborators return. *)
Theorem face_out_of_range_raises (Nodes : list (point F))
    (Faces : list face) :
  5 ≤ length Nodes →
  ¬ Forall (λ t : face, t.1.1 < length Nodes ∧ t.1.2 < length Nodes
                        ∧ t.2 < length Nodes) Faces →
  geometric_laplacian C reciprocal cotangent_kernel find_neighbors
    find_faces_at_vertices eigs Nodes Faces = ([], None) ∧
  fem_laplacian C reciprocal cotangent_kernel find_neighbors
    find_faces_at_vertices find_faces_at_edges find_edges eigs Nodes Faces
  = ([], None).
Proof.
  intros Hn Hbad. apply precomputation_None; [done|].
  assert (area Nodes Faces = None) as HArea.
  { destruct (area Nodes Faces) as [Area|] eqn:HA; [|done].
    exfalso. apply Hbad, area_is_Some. by rewrite HA. }
  unfold precomputation. rewrite HArea.
  repeat (bind_head; [|reflexivity]). reflexivity.
Qed.

(** X9. Whenever the FEM portal function gets as far as the solver, so
    does the geometric one on the same mesh: the FEM stages need everything
    the geometric stages need. *)
Theorem fem_reaches_solver (Nodes : list (point F)) (Faces : list face) :
  is_Some (fem_operands cotangent_kernel find_neighbors
             find_faces_at_vertices find_faces_at_edges find_edges
             Nodes Faces) →
  is_Some (geometric_operands cotangent_kernel find_neighbors
             find_faces_at_vertices Nodes Faces).
Proof.
  unfold fem_operands, geometric_operands.
  destruct (precomp Nodes Faces) as [[[[A Nb] Area] FaN]|];
    [|by intros [x Hx]].
  cbn [mbind option_bind].
  destruct (find_faces_at_edges Faces) as [fae|]; [|by intros [x Hx]].
  cbn [mbind option_bind].
  destruct (find_edges Faces) as [es|]; [|by intros [x Hx]].
  cbn [mbind option_bind].
  destruct (gen_P es fae Area (length Nodes)) as [P|]; [|by intros [x Hx]].
  cbn [mbind option_bind].
  destruct (gen_Q es fae Area (length Nodes) Nb FaN) as [Q|] eqn:HQ;
    [|by intros [x Hx]].
  intros _.
  destruct (gen_Q_inv _ _ _ _ _ _ _ HQ) as (q & Hq & _).
  unfold masses. rewrite Hq. by eexists.
Qed.

(** X10. What the solver is handed.  The stiffness operand has the
    dimension of the kernel's matrix, which is square; the mass operand is a
    dense array with one row and one column per node. *)
Theorem operand_shapes (Nodes : list (point F)) (Faces : list face) :
  (∀ X M, geometric_operands cotangent_kernel find_neighbors
            find_faces_at_vertices Nodes Faces = Some (X, M) →
     ∃ W A D, cotangent_kernel Nodes Faces = Some W ∧
              (sp_shape W).1 = (sp_shape W).2 ∧
              X = Sparse A ∧ sp_shape A = sp_shape W ∧
              M = Dense D ∧ length D = length Nodes ∧
              Forall (λ row, length row = length Nodes) D) ∧
  (∀ X M, fem_operands cotangent_kernel find_neighbors
            find_faces_at_vertices find_faces_at_edges find_edges
            Nodes Faces = Some (X, M) →
     ∃ W A B, cotangent_kernel Nodes Faces = Some W ∧
              (sp_shape W).1 = (sp_shape W).2 ∧
              X = Dense A ∧ length A = (sp_shape W).1 ∧
              Forall (λ row, length row = (sp_shape W).1) A ∧
              M = Dense B ∧ length B = length Nodes ∧
              Forall (λ row, length row = length Nodes) B).
Proof.
  assert (∀ A Nb Area FaN, precomp Nodes Faces = Some (A, Nb, Area, FaN) →
            ∃ W, cotangent_kernel Nodes Faces = Some W ∧
                 (sp_shape W).1 = (sp_shape W).2 ∧
                 sp_shape A = sp_shape W) as Hpre.
  { intros A Nb Area FaN. unfold precomputation.
    destruct (cotangent_kernel Nodes Faces) as [W|]; [|done].
    cbn [mbind option_bind].
    destruct (find_neighbors Faces (length Nodes)) as [Nb'|]; [|done].
    cbn [mbind option_bind].
    destruct (gen_V Faces (sp_div W (of_int 2)) Nb') as [V|] eqn:HV; [|done].
    cbn [mbind option_bind].
    destruct (sp_sub V (sp_div W (of_int 2))) as [A'|] eqn:HA; [|done].
    cbn [mbind option_bind].
    destruct (area Nodes Faces) as [Area'|]; [|done].
    cbn [mbind option_bind].
    destruct (find_faces_at_vertices Faces (length Nodes)) as [FaN'|];
      [|done].
    intros [= <- <- <- <-]. exists W. split; [done|].
    destruct (stiffness_needs_square _ _ _ _ HV) as [HVs Hsq].
    assert ((sp_shape W).1 = (sp_shape W).2) as Hsquare.
    { apply Hsq. by eexists. }
    split; [done|].
    unfold sp_sub in HA. destruct (shape_eqb _ _); [|done].
    injection HA as <-. cbn [sp_shape] in *. rewrite HVs.
    apply injective_projections; [reflexivity | exact Hsquare]. }
  split.
  - intros X M. unfold geometric_operands.
    destruct (precomp Nodes Faces) as [[[[A Nb] Area] FaN]|] eqn:HP; [|done].
    cbn [mbind option_bind].
    destruct (masses Nodes Area FaN) as [D|] eqn:HD; [|done].
    intros [= <- <-].
    destruct (Hpre _ _ _ _ eq_refl) as (W & HW & Hsq & HAs).
    destruct (masses_inv _ _ _ _ HD) as (d & _ & HDeq).
    destruct (toarray_dimensions D) as [HD1 HD2].
    rewrite HDeq in HD1, HD2. cbn [sp_shape sp_div setdiag lil_matrix] in *.
    simpl in HD1, HD2. rewrite <- HDeq in HD1, HD2.
    by exists W, A, (toarray D).
  - intros X M. unfold fem_operands.
    destruct (precomp Nodes Faces) as [[[[A Nb] Area] FaN]|] eqn:HP; [|done].
    cbn [mbind option_bind].
    destruct (find_faces_at_edges Faces) as [fae|]; [|done].
    cbn [mbind option_bind].
    destruct (find_edges Faces) as [es|]; [|done].
    cbn [mbind option_bind].
    destruct (gen_P es fae Area (length Nodes)) as [P|] eqn:HPm; [|done].
    cbn [mbind option_bind].
    destruct (gen_Q es fae Area (length Nodes) Nb FaN) as [Q|]; [|done].
    cbn [mbind option_bind].
    destruct (sp_add P Q) as [B|] eqn:HB; [|done].
    intros [= <- <-].
    destruct (Hpre _ _ _ _ eq_refl) as (W & HW & Hsq & HAs).
    assert (sp_shape B = (length Nodes, length Nodes)) as HBs.
    { unfold sp_add in HB. destruct (shape_eqb _ _); [|done].
      injection HB as <-. cbn [sp_shape]. by eapply gen_P_shape. }
    exists W, (toarray A), (toarray B).
    destruct (toarray_dimensions A) as [HA1 HA2].
    destruct (toarray_dimensions B) as [HB1 HB2].
    rewrite HAs in HA1, HA2. rewrite HBs in HB1, HB2. simpl in HB1, HB2.
    rewrite <- Hsq in HA2. by repeat split.
Qed.

End PortalErrors.

(** * Further facts in exact arithmetic *)

Section RealGeometry.
Local Open Scope R_scope.
Implicit Types (p q u v : point R) (a b c k : R).

Lemma norm_square p : norm p * norm p = dot p p.
Proof.
  unfold norm, dot. simpl. apply sqrt_sqrt.
  pose proof (Rle_0_sqr p.1.1). pose proof (Rle_0_sqr p.1.2).
  pose proof (Rle_0_sqr p.2). unfold Rsqr in *. lra.
Qed.

Lemma norm_nonneg p : 0 <= norm p.
Proof. unfold norm. simpl. apply sqrt_pos. Qed.

Lemma dot_self_nonneg p : 0 <= dot p p.
Proof. rewrite <- norm_square. apply Rmult_le_pos; apply norm_nonneg. Qed.

Lemma heron_radicand_sides a b c :
  heron_radicand a b c
  = (4 * (a * a) * (c * c)
     - (a * a + c * c - b * b) * (a * a + c * c - b * b)) / 16.
Proof. unfold heron_radicand. simpl. field. Qed.

(** The radicand of Heron's formula on the three side lengths is a quarter
    of the squared cross product of two edge vectors. *)
Lemma radicand_cross (p0 p1 p2 : point R) :
  heron_radicand (norm (vsub p0 p1)) (norm (vsub p1 p2)) (norm (vsub p2 p0))
  = dot (cross (vsub p1 p0) (vsub p2 p0)) (cross (vsub p1 p0) (vsub p2 p0))
    / 4.
Proof.
  rewrite heron_radicand_sides, !norm_square.
  destruct p0 as [[x0 y0] z0], p1 as [[x1 y1] z1], p2 as [[x2 y2] z2].
  unfold dot, cross, vsub. simpl. field.
Qed.

Lemma heron_cross (p0 p1 p2 : point R) :
  heron p0 p1 p2 = norm (cross (vsub p1 p0) (vsub p2 p0)) / 2.
Proof.
  unfold heron, side_lengths. rewrite radicand_cross.
  change (fsqrt ?x) with (R_sqrt.sqrt x).
  apply sqrt_lem_1.
  - pose proof (dot_self_nonneg (cross (vsub p1 p0) (vsub p2 p0))). lra.
  - pose proof (norm_nonneg (cross (vsub p1 p0) (vsub p2 p0))). lra.
  - rewrite <- norm_square. field.
Qed.

(** X11. In exact arithmetic the radicand of Heron's formula is never
    negative, and the area [area] computes for a face is half the length of
    the cross product of two of its edge vectors: the area of the
    triangle. *)
Theorem area_is_half_cross_product (Nodes : list (point R)) (t : face)
    (p0 p1 p2 : point R) :
  Nodes !! t.1.1 = Some p0 → Nodes !! t.1.2 = Some p1 →
  Nodes !! t.2 = Some p2 →
  0 <= heron_radicand (norm (vsub p0 p1)) (norm (vsub p1 p2))
                      (norm (vsub p2 p0)) ∧
  triangle_area Nodes t
  = Some (norm (cross (vsub p1 p0) (vsub p2 p0)) / 2).
Proof.
  intros H0 H1 H2. split.
  - rewrite radicand_cross.
    pose proof (dot_self_nonneg (cross (vsub p1 p0) (vsub p2 p0))). lra.
  - unfold triangle_area. rewrite H0, H1, H2. cbn [mbind option_bind].
    by rewrite heron_cross.
Qed.

(** X12. In exact arithmetic a face whose three nodes lie on one line has
    area exactly zero (where binary64 can give NaN). *)
Theorem collinear_area_zero (Nodes : list (point R)) (t : face)
    (p0 p1 p2 : point R) (k : R) :
  Nodes !! t.1.1 = Some p0 → Nodes !! t.1.2 = Some p1 →
  Nodes !! t.2 = Some p2 →
  vsub p2 p0 = scale k (vsub p1 p0) →
  triangle_area Nodes t = Some 0.
Proof.
  intros H0 H1 H2 Hline.
  unfold triangle_area. rewrite H0, H1, H2. cbn [mbind option_bind].
  rewrite heron_cross, Hline. f_equal.
  replace (norm (cross (vsub p1 p0) (scale k (vsub p1 p0)))) with 0;
    [field|].
  symmetry. apply Rsqr_0_uniq. unfold Rsqr. rewrite norm_square.
  destruct (vsub p1 p0) as [[x y] z]. unfold dot, cross, scale. simpl. ring.
Qed.

Lemma vsub_scale k p q : vsub (scale k p) (scale k q) = scale k (vsub p q).
Proof.
  destruct p as [[x y] z], q as [[x' y'] z']. unfold vsub, scale. simpl.
  f_equal; [f_equal|]; ring.
Qed.

Lemma cross_scale k u v :
  cross (scale k u) (scale k v) = scale (k * k) (cross u v).
Proof.
  destruct u as [[x y] z], v as [[x' y'] z']. unfold cross, scale. simpl.
  f_equal; [f_equal|]; ring.
Qed.

Lemma norm_scale c p : 0 <= c → norm (scale c p) = c * norm p.
Proof.
  intros Hc. apply Rsqr_inj.
  - apply norm_nonneg.
  - apply Rmult_le_pos; [done | apply norm_nonneg].
  - unfold Rsqr.
    replace (c * norm p * (c * norm p)) with (c * c * (norm p * norm p))
      by ring.
    rewrite !norm_square. destruct p as [[x y] z].
    unfold dot, scale. simpl. ring.
Qed.

Lemma heron_scale k (p0 p1 p2 : point R) :
  heron (scale k p0) (scale k p1) (scale k p2) = k * k * heron p0 p1 p2.
Proof.
  rewrite !heron_cross, !vsub_scale, cross_scale.
  rewrite norm_scale by nra. field.
Qed.

Lemma mapM_fmap_result {S T : Type} (f h : S → option T) (g : T → T)
    (l : list S) :
  (∀ x, f x = g <$> h x) → mapM f l = map g <$> mapM h l.
Proof.
  intros Hf. induction l as [|x l IH]; [done|].
  cbn [mapM]. rewrite Hf, IH.
  by destruct (h x), (mapM h l).
Qed.

(** X13. In exact arithmetic, multiplying every coordinate by [k]
    multiplies every area [area] returns by [k * k]; an index out of range
    raises before and after. *)
Theorem area_scale (k : R) (Nodes : list (point R)) (Meshes : list face) :
  area (scale k <$> Nodes) Meshes
  = map (Rmult (k * k)) <$> area Nodes Meshes.
Proof.
  unfold area. apply mapM_fmap_result. intros t.
  unfold triangle_area. rewrite !list_lookup_fmap.
  destruct (Nodes !! t.1.1) as [p0|]; [|done].
  destruct (Nodes !! t.1.2) as [p1|]; [|done].
  destruct (Nodes !! t.2) as [p2|]; [|done]. simpl.
  by rewrite heron_scale.
Qed.

(** ** Mass matrices *)

Lemma area_nonneg (Nodes : list (point R)) (Meshes : list face)
    (Area : list R) :
  area Nodes Meshes = Some Area → Forall (λ x, 0 <= x) Area.
Proof.
  intros HArea. apply mapM_Some in HArea. apply Forall_lookup.
  intros k x Hx.
  destruct (Forall2_lookup_r _ _ _ _ _ HArea Hx) as (t & _ & Ht).
  unfold triangle_area in Ht.
  destruct (Nodes !! t.1.1) as [p0|]; [|done].
  destruct (Nodes !! t.1.2) as [p1|]; [|done].
  destruct (Nodes !! t.2) as [p2|]; [|done].
  injection Ht as <-. rewrite heron_cross.
  pose proof (norm_nonneg (cross (vsub p1 p0) (vsub p2 p0))). lra.
Qed.

Lemma pysum_nonneg (xs : list R) :
  Forall (λ x, 0 <= x) xs → 0 <= pysum xs.
Proof.
  unfold pysum. simpl.
  assert (∀ acc, 0 <= acc → Forall (λ x, 0 <= x) xs
                 → 0 <= foldl Rplus acc xs) as Hgen.
  { induction xs as [|x xs IH]; intros acc Hacc Hxs; [done|].
    apply Forall_cons in Hxs as [Hx Hxs]. simpl. apply IH; [lra | done]. }
  intros Hxs. apply Hgen; [lra | done].
Qed.

Lemma looked_up_nonneg (Area : list R) (fs : list nat) (xs : list R) :
  Forall (λ x, 0 <= x) Area →
  mapM (λ f, Area !! f) fs = Some xs → Forall (λ x, 0 <= x) xs.
Proof.
  intros HArea Hxs. apply mapM_Some in Hxs. apply Forall_lookup.
  intros k x Hx.
  destruct (Forall2_lookup_r _ _ _ _ _ Hxs Hx) as (f & _ & Hf).
  exact (Forall_lookup_1 _ _ _ _ HArea Hf).
Qed.

Lemma area_sums_nonneg (Area : list R) (Index : list (list nat)) (n : nat)
    (v : list R) :
  Forall (λ x, 0 <= x) Area →
  row_sums (λ _ j, Area !! j) Index n = Some v → Forall (λ x, 0 <= x) v.
Proof.
  intros HArea Hv. destruct (row_sums_inv _ _ _ _ Hv) as [Hlen Hrows].
  apply Forall_lookup. intros i x Hx.
  assert (i < n)%nat as Hi by (rewrite <- Hlen; by eapply lookup_lt_Some).
  destruct (Hrows i Hi) as (Ii & xs & _ & Hxs & Hvi).
  rewrite Hvi in Hx. injection Hx as <-.
  apply pysum_nonneg. by eapply looked_up_nonneg.
Qed.

Lemma diagonal_nonneg (n : nat) (v : list R) (c : Z) (i j : nat) :
  (0 < c)%Z → Forall (λ x, 0 <= x) v →
  0 <= sp_entry (sp_div (setdiag (lil_matrix (n, n)) v) (of_int c)) i j.
Proof.
  intros Hc Hv. unfold sp_entry. rewrite sp_div_lookup.
  unfold setdiag, lil_matrix. cbn [sp_data sp_shape].
  rewrite setdiag_from_lookup, lookup_empty.
  case_decide; [|simpl; lra].
  destruct (take _ v !! (i - 0)%nat) as [x|] eqn:Hx; [|simpl; lra].
  apply lookup_take_Some in Hx as [Hx _].
  pose proof (Forall_lookup_1 _ _ _ _ Hv Hx) as Hpos. simpl.
  apply Rmult_le_pos; [done|].
  apply Rlt_le, Rinv_0_lt_compat, IZR_lt. done.
Qed.

(** X14. In exact arithmetic, with the areas that [area] returns, no
    entry of the geometric mass matrix [D], of [P], of [Q] or of the FEM
    mass matrix [B = P + Q] is negative. *)
Theorem mass_entries_nonnegative (Nodes : list (point R))
    (Faces : list face) (Area : list R) (FaN Nb : list (list nat))
    (es : list edge) (fae : gmap edge (list nat)) (n : nat)
    (D P Q B : spmatrix R) :
  area Nodes Faces = Some Area →
  masses Nodes Area FaN = Some D →
  gen_P es fae Area n = Some P →
  gen_Q es fae Area n Nb FaN = Some Q →
  sp_add P Q = Some B →
  ∀ i j, 0 <= sp_entry D i j ∧ 0 <= sp_entry P i j ∧
         0 <= sp_entry Q i j ∧ 0 <= sp_entry B i j.
Proof.
  intros HArea HD HP HQ HB i j.
  pose proof (area_nonneg _ _ _ HArea) as Hpos.
  assert (0 <= sp_entry D i j) as HDij.
  { destruct (masses_inv _ _ _ _ HD) as (d & Hd & ->).
    apply diagonal_nonneg; [done|]. by eapply area_sums_nonneg. }
  assert (0 <= sp_entry Q i j) as HQij.
  { destruct (gen_Q_inv _ _ _ _ _ _ _ HQ) as (q & Hq & ->).
    apply diagonal_nonneg; [done|]. by eapply area_sums_nonneg. }
  assert (0 <= sp_entry P i j) as HPij.
  { unfold sp_entry. rewrite (gen_P_lookup _ _ _ _ _ HP).
    case_decide; [|simpl; lra].
    destruct (fae !! (i, j)) as [fs|]; [|simpl; lra].
    cbn [mbind option_bind].
    destruct (mapM (λ f, Area !! f) fs) as [xs|] eqn:Hxs; [|simpl; lra].
    simpl. pose proof (pysum_nonneg xs (looked_up_nonneg _ _ _ Hpos Hxs)).
    lra. }
  repeat split; try done.
  unfold sp_entry in *. rewrite (sp_add_lookup _ _ _ _ _ HB).
  destruct (sp_data P !! (i, j)), (sp_data Q !! (i, j)); simpl in *; lra.
Qed.

(** X15. In exact arithmetic the diagonal matrix [Q] of the FEM mass
    matrix is half the geometric mass matrix [D] of the same mesh; off the
    diagonal [B = P + Q] is [P], and on the diagonal it is [D/2] wherever
    the edge list holds no loop [(i,i)]. *)
Theorem fem_mass_from_geometric (Nodes : list (point R)) (Area : list R)
    (FaN Nb : list (list nat)) (es : list edge)
    (fae : gmap edge (list nat)) (D P Q B : spmatrix R) :
  masses Nodes Area FaN = Some D →
  gen_P es fae Area (length Nodes) = Some P →
  gen_Q es fae Area (length Nodes) Nb FaN = Some Q →
  sp_add P Q = Some B →
  ∀ i j, sp_entry Q i j = sp_entry D i j / 2 ∧
         (i ≠ j → sp_entry B i j = sp_entry P i j) ∧
         ((i, i) ∉ es → sp_entry B i i = sp_entry D i i / 2).
Proof.
  intros HD HP HQ HB.
  destruct (masses_inv _ _ _ _ HD) as (d & Hd & HDeq).
  destruct (gen_Q_inv _ _ _ _ _ _ _ HQ) as (q & Hq & HQeq).
  rewrite Hd in Hq. injection Hq as <-.
  assert (∀ i j, sp_entry Q i j = sp_entry D i j / 2) as Hhalf.
  { intros i j. rewrite HDeq, HQeq. unfold sp_entry.
    rewrite !sp_div_lookup.
    destruct (sp_data (setdiag _ d) !! (i, j)); simpl; field. }
  intros i j. split; [apply Hhalf|]. split.
  - intros Hij. unfold sp_entry. rewrite (sp_add_lookup _ _ _ _ _ HB).
    rewrite (gen_Q_off_diagonal _ _ _ _ _ _ _ _ _ HQ Hij).
    destruct (sp_data P !! (i, j)); simpl; lra.
  - intros Hloop. rewrite <- Hhalf. unfold sp_entry.
    rewrite (sp_add_lookup _ _ _ _ _ HB), (gen_P_lookup _ _ _ _ _ HP).
    rewrite decide_False by done.
    destruct (sp_data Q !! (i, i)); simpl; lra.
Qed.

End RealGeometry.

(** * The further facts on sample data *)

Lemma gen_V_returns_iff_witness :
  let Nb := [[1]; [0]; []] in
  (∀ i, i < (sp_shape Sample.mirrored_weights).1 →
        ∃ Ni, Nb !! i = Some Ni
              ∧ Forall (λ j, j < (sp_shape Sample.mirrored_weights).2) Ni) ∧
  is_Some (gen_V [] Sample.mirrored_weights Nb).
Proof.
  intros Nb.
  assert (is_Some (gen_V [] Sample.mirrored_weights Nb)) as Hsome
    by (eexists; vm_compute; reflexivity).
  split; [|exact Hsome].
  exact (proj1 (gen_V_returns_iff [] Sample.mirrored_weights Nb) Hsome).
Defined.

Lemma nonsquare_kernel_raises_witness :
  5 ≤ length Sample.nodes ∧
  Sample.wide_kernel Sample.nodes Sample.faces
  = Some (SpMatrix (8, 9) ∅) ∧
  (sp_shape (SpMatrix (F := float) (8, 9) ∅)).1
  ≠ (sp_shape (SpMatrix (F := float) (8, 9) ∅)).2 ∧
  geometric_laplacian float Sample.float_reciprocal Sample.wide_kernel
    Sample.find_neighbors Sample.find_faces_at_vertices
    Sample.quotient_solver Sample.nodes Sample.faces = ([], None) ∧
  fem_laplacian float Sample.float_reciprocal Sample.wide_kernel
    Sample.find_neighbors Sample.find_faces_at_vertices
    Sample.find_faces_at_edges Sample.find_edges Sample.quotient_solver
    Sample.nodes Sample.faces = ([], None).
Proof.
  split; [simpl; lia|]. split; [reflexivity|]. split; [simpl; lia|].
  apply (nonsquare_kernel_raises float Sample.float_reciprocal
           Sample.wide_kernel Sample.find_neighbors
           Sample.find_faces_at_vertices Sample.find_faces_at_edges
           Sample.find_edges Sample.quotient_solver Sample.nodes Sample.faces
           (SpMatrix (8, 9) ∅)).
  - simpl; lia.
  - reflexivity.
  - simpl; lia.
Defined.

Lemma mirrored_weights_symmetric (i j : nat) :
  sp_data Sample.mirrored_weights !! (i, j)
  = sp_data Sample.mirrored_weights !! (j, i).
Proof.
  unfold Sample.mirrored_weights. cbn [sp_data].
  rewrite !lookup_insert, !lookup_empty.
  repeat case_decide; simplify_eq; done.
Qed.

Lemma stiffness_symmetric_witness :
  let Nb := [[1]; [0]; []] in
  ∃ V A,
    (∀ i j, sp_data Sample.mirrored_weights !! (i, j)
            = sp_data Sample.mirrored_weights !! (j, i)) ∧
    gen_V [] Sample.mirrored_weights Nb = Some V ∧
    sp_sub V Sample.mirrored_weights = Some A ∧
    ∀ i j, sp_entry A i j = sp_entry A j i.
Proof.
  intros Nb.
  destruct (gen_V [] Sample.mirrored_weights Nb) as [V|] eqn:HV;
    [|vm_compute in HV; done].
  destruct (sp_sub V Sample.mirrored_weights) as [A|] eqn:HA.
  - exists V, A. split; [exact mirrored_weights_symmetric|].
    split; [done|]. split; [done|].
    exact (stiffness_symmetric [] Sample.mirrored_weights Nb V A
             mirrored_weights_symmetric HV HA).
  - vm_compute in HV. injection HV as <-. vm_compute in HA. done.
Defined.

Lemma masses_returns_iff_witness :
  let Areas := [1%float] in
  (∀ i, i < length Sample.collinear_nodes →
        ∃ fs, Sample.sparse_faces_at_nodes !! i = Some fs
              ∧ Forall (λ f, f < length Areas) fs) ∧
  is_Some (masses Sample.collinear_nodes Areas Sample.sparse_faces_at_nodes)
  ∧ is_Some (gen_Q [] ∅ Areas (length Sample.collinear_nodes) []
               Sample.sparse_faces_at_nodes).
Proof.
  intros Areas.
  assert (is_Some (masses Sample.collinear_nodes Areas
                     Sample.sparse_faces_at_nodes)) as Hsome
    by (eexists; vm_compute; reflexivity).
  pose proof (masses_returns_iff Sample.collinear_nodes Areas
                Sample.sparse_faces_at_nodes [] ∅ []) as [Hm Hq].
  split; [exact (proj1 Hm Hsome)|]. split; [exact Hsome|].
  exact (proj2 Hq Hsome).
Defined.

Lemma gen_P_returns_iff_witness :
  let Area := [1%float] in
  Forall (λ e : edge, e.1 < 3 ∧ e.2 < 3 ∧
            ∃ fs, Sample.triangle_faces_at_edges !! e = Some fs
                  ∧ Forall (λ f, f < length Area) fs)
    Sample.triangle_edges ∧
  is_Some (gen_P Sample.triangle_edges Sample.triangle_faces_at_edges
             Area 3).
Proof.
  intros Area.
  assert (is_Some (gen_P Sample.triangle_edges
                     Sample.triangle_faces_at_edges Area 3)) as Hsome
    by (eexists; vm_compute; reflexivity).
  split; [|exact Hsome].
  exact (proj1 (gen_P_returns_iff Sample.triangle_edges
                  Sample.triangle_faces_at_edges Area 3) Hsome).
Defined.

Lemma gen_P_edge_set_witness :
  let Area := [1%float] in
  let repeated := [(1, 2); (0, 1); (1, 2)] in
  (∀ e, e ∈ Sample.triangle_edges ↔ e ∈ repeated) ∧
  gen_P Sample.triangle_edges Sample.triangle_faces_at_edges Area 3
  = gen_P repeated Sample.triangle_faces_at_edges Area 3.
Proof.
  intros Area repeated.
  assert (∀ e, e ∈ Sample.triangle_edges ↔ e ∈ repeated) as Hset.
  { intros e. unfold Sample.triangle_edges, repeated.
    rewrite !elem_of_cons, !elem_of_nil. tauto. }
  split; [exact Hset|].
  exact (gen_P_edge_set Sample.triangle_edges repeated
           Sample.triangle_faces_at_edges Area 3 Hset).
Defined.

Lemma unreferenced_node_zero_row_witness :
  let Areas := [1%float] in
  ∃ D,
    fdiv (of_int 0) (of_int 3) = (fzero : float) ∧
    masses Sample.collinear_nodes Areas Sample.sparse_faces_at_nodes
    = Some D ∧
    1 < length Sample.collinear_nodes ∧
    Sample.sparse_faces_at_nodes !! 1 = Some [] ∧
    ∀ j, j < length Sample.collinear_nodes →
         dense_get (toarray D) 1 j = Some fzero ∧
         dense_get (toarray D) j 1 = Some fzero.
Proof.
  intros Areas.
  assert (fdiv (of_int 0) (of_int 3) = (fzero : float)) as Hz
    by reflexivity.
  destruct (masses Sample.collinear_nodes Areas
              Sample.sparse_faces_at_nodes) as [D|] eqn:HD;
    [|vm_compute in HD; done].
  exists D. split; [exact Hz|]. split; [done|].
  assert (1 < length Sample.collinear_nodes) as H1 by (simpl; lia).
  split; [exact H1|]. split; [reflexivity|].
  exact (unreferenced_node_zero_row Sample.collinear_nodes Areas
           Sample.sparse_faces_at_nodes D 1 Hz HD H1 eq_refl).
Defined.

Lemma face_out_of_range_raises_witness :
  let Faces := [(0, 1, 9)] in
  5 ≤ length Sample.nodes ∧
  ¬ Forall (λ t : face, t.1.1 < length Sample.nodes
                        ∧ t.1.2 < length Sample.nodes
                        ∧ t.2 < length Sample.nodes) Faces ∧
  Sample.geometric Sample.nodes Faces = ([], None) ∧
  Sample.fem Sample.nodes Faces = ([], None).
Proof.
  intros Faces.
  assert (¬ Forall (λ t : face, t.1.1 < length Sample.nodes
                                ∧ t.1.2 < length Sample.nodes
                                ∧ t.2 < length Sample.nodes) Faces) as Hbad.
  { intros Hall. apply Forall_cons in Hall as [(_ & _ & H9) _].
    simpl in H9. lia. }
  split; [simpl; lia|]. split; [exact Hbad|].
  apply (face_out_of_range_raises float Sample.float_reciprocal
           Sample.unit_kernel Sample.find_neighbors
           Sample.find_faces_at_vertices Sample.find_faces_at_edges
           Sample.find_edges Sample.quotient_solver Sample.nodes Faces).
  - simpl; lia.
  - exact Hbad.
Defined.

Lemma fem_reaches_solver_witness :
  is_Some (fem_operands Sample.unit_kernel Sample.find_neighbors
             Sample.find_faces_at_vertices Sample.find_faces_at_edges
             Sample.find_edges Sample.nodes Sample.faces) ∧
  is_Some (geometric_operands Sample.unit_kernel Sample.find_neighbors
             Sample.find_faces_at_vertices Sample.nodes Sample.faces).
Proof.
  assert (is_Some (fem_operands Sample.unit_kernel Sample.find_neighbors
                     Sample.find_faces_at_vertices Sample.find_faces_at_edges
                     Sample.find_edges Sample.nodes Sample.faces)) as Hsome
    by (eexists; vm_compute; reflexivity).
  split; [exact Hsome|].
  exact (fem_reaches_solver Sample.unit_kernel Sample.find_neighbors
           Sample.find_faces_at_vertices Sample.find_faces_at_edges
           Sample.find_edges Sample.nodes Sample.faces Hsome).
Defined.

Lemma operand_shapes_witness :
  ∃ X M W A D,
    geometric_operands Sample.unit_kernel Sample.find_neighbors
      Sample.find_faces_at_vertices Sample.nodes Sample.faces
    = Some (X, M) ∧
    Sample.unit_kernel Sample.nodes Sample.faces = Some W ∧
    (sp_shape W).1 = (sp_shape W).2 ∧
    X = Sparse A ∧ sp_shape A = sp_shape W ∧
    M = Dense D ∧ length D = length Sample.nodes ∧
    Forall (λ row, length row = length Sample.nodes) D.
Proof.
  destruct (geometric_operands Sample.unit_kernel Sample.find_neighbors
              Sample.find_faces_at_vertices Sample.nodes Sample.faces)
    as [[X M]|] eqn:Hops; [|vm_compute in Hops; done].
  destruct (proj1 (operand_shapes (F := float) Sample.unit_kernel
                     Sample.find_neighbors Sample.find_faces_at_vertices
                     Sample.find_faces_at_edges Sample.find_edges
                     Sample.nodes Sample.faces) X M Hops)
    as (W & A & D & HW & Hsq & HX & HA & HM & HD1 & HD2).
  by exists X, M, W, A, D.
Defined.

Lemma area_is_half_cross_product_witness :
  let p0 : point R := (0, 0, 0)%R in
  let p1 : point R := (0, 0, 1)%R in
  let p2 : point R := (1, 0, 1)%R in
  Sample.real_nodes !! 0 = Some p0 ∧ Sample.real_nodes !! 2 = Some p1 ∧
  Sample.real_nodes !! 4 = Some p2 ∧
  (0 <= heron_radicand (norm (vsub p0 p1)) (norm (vsub p1 p2))
                       (norm (vsub p2 p0)))%R ∧
  triangle_area Sample.real_nodes (0, 2, 4)
  = Some (norm (cross (vsub p1 p0) (vsub p2 p0)) / 2)%R.
Proof.
  intros p0 p1 p2.
  split; [reflexivity|]. split; [reflexivity|]. split; [reflexivity|].
  exact (area_is_half_cross_product Sample.real_nodes (0, 2, 4) p0 p1 p2
           eq_refl eq_refl eq_refl).
Defined.

Lemma collinear_area_zero_witness :
  let p0 : point R := (0, 0, 0)%R in
  let p1 : point R := (2, 0, 0)%R in
  let p2 : point R := (9, 0, 0)%R in
  Sample.real_collinear_nodes !! 0 = Some p0 ∧
  Sample.real_collinear_nodes !! 1 = Some p1 ∧
  Sample.real_collinear_nodes !! 2 = Some p2 ∧
  vsub p2 p0 = scale (9 / 2) (vsub p1 p0) ∧
  triangle_area Sample.real_collinear_nodes (0, 1, 2) = Some 0%R.
Proof.
  intros p0 p1 p2.
  assert (vsub p2 p0 = scale (9 / 2) (vsub p1 p0)) as Hline.
  { unfold vsub, scale, p0, p1, p2. simpl. f_equal; [f_equal|]; lra. }
  split; [reflexivity|]. split; [reflexivity|]. split; [reflexivity|].
  split; [exact Hline|].
  exact (collinear_area_zero Sample.real_collinear_nodes (0, 1, 2) p0 p1 p2
           (9 / 2) eq_refl eq_refl eq_refl Hline).
Defined.

(** The small mesh runs through [area] and the mass builders. *)
Lemma triangle_mass_run :
  ∃ Area D P Q B,
    area Sample.triangle_nodes Sample.triangle_faces = Some Area ∧
    masses Sample.triangle_nodes Area Sample.triangle_faces_at_nodes
    = Some D ∧
    gen_P Sample.triangle_edges Sample.triangle_faces_at_edges Area
      (length Sample.triangle_nodes) = Some P ∧
    gen_Q Sample.triangle_edges Sample.triangle_faces_at_edges Area
      (length Sample.triangle_nodes) [] Sample.triangle_faces_at_nodes
    = Some Q ∧
    sp_add P Q = Some B.
Proof.
  destruct (area_entries Sample.triangle_nodes Sample.triangle_faces)
    as (Area & HArea & HAl & _).
  { apply (bool_decide_unpack _). vm_compute. exact I. }
  assert (Forall (Forall (λ f, f < length Area))
            Sample.triangle_faces_at_nodes) as Hfaces.
  { rewrite HAl. apply (bool_decide_unpack _). vm_compute. exact I. }
  destruct (masses_entries Sample.triangle_nodes Area
              Sample.triangle_faces_at_nodes eq_refl Hfaces)
    as (D & HD & _).
  destruct (gen_Q_entries Sample.triangle_edges
              Sample.triangle_faces_at_edges Area 3 []
              Sample.triangle_faces_at_nodes eq_refl Hfaces)
    as (Q & HQ & HQs & _).
  destruct (gen_P_entries Sample.triangle_edges
              Sample.triangle_faces_at_edges Area 3)
    as (P & HP & HPs & _).
  { rewrite HAl. unfold Sample.triangle_edges.
    repeat (apply Forall_cons; split;
      [split; [simpl; lia|]; split; [simpl; lia|];
       eexists; split; [vm_compute; reflexivity|];
       apply (bool_decide_unpack _); vm_compute; exact I |]).
    apply Forall_nil_2. }
  exists Area, D, P, Q, (SpMatrix (sp_shape P)
                        (merge (sp_binop fadd) (sp_data P) (sp_data Q))).
  repeat split; try done. apply sp_add_Some. by rewrite HPs, HQs.
Qed.

Lemma mass_entries_nonnegative_witness :
  ∃ Area D P Q B,
    area Sample.triangle_nodes Sample.triangle_faces = Some Area ∧
    masses Sample.triangle_nodes Area Sample.triangle_faces_at_nodes
    = Some D ∧
    gen_P Sample.triangle_edges Sample.triangle_faces_at_edges Area
      (length Sample.triangle_nodes) = Some P ∧
    gen_Q Sample.triangle_edges Sample.triangle_faces_at_edges Area
      (length Sample.triangle_nodes) [] Sample.triangle_faces_at_nodes
    = Some Q ∧
    sp_add P Q = Some B ∧
    ∀ i j, (0 <= sp_entry D i j)%R ∧ (0 <= sp_entry P i j)%R ∧
           (0 <= sp_entry Q i j)%R ∧ (0 <= sp_entry B i j)%R.
Proof.
  destruct triangle_mass_run as (Area & D & P & Q & B & HA & HD & HP & HQ
                                 & HB).
  exists Area, D, P, Q, B. repeat (split; [done|]).
  exact (mass_entries_nonnegative Sample.triangle_nodes
           Sample.triangle_faces Area Sample.triangle_faces_at_nodes []
           Sample.triangle_edges Sample.triangle_faces_at_edges
           (length Sample.triangle_nodes) D P Q B HA HD HP HQ HB).
Defined.

Lemma fem_mass_from_geometric_witness :
  ∃ Area D P Q B,
    masses Sample.triangle_nodes Area Sample.triangle_faces_at_nodes
    = Some D ∧
    gen_P Sample.triangle_edges Sample.triangle_faces_at_edges Area
      (length Sample.triangle_nodes) = Some P ∧
    gen_Q Sample.triangle_edges Sample.triangle_faces_at_edges Area
      (length Sample.triangle_nodes) [] Sample.triangle_faces_at_nodes
    = Some Q ∧
    sp_add P Q = Some B ∧
    ∀ i j, sp_entry Q i j = (sp_entry D i j / 2)%R ∧
           (i ≠ j → sp_entry B i j = sp_entry P i j) ∧
           ((i, i) ∉ Sample.triangle_edges →
              sp_entry B i i = (sp_entry D i i / 2)%R).
Proof.
  destruct triangle_mass_run as (Area & D & P & Q & B & HA & HD & HP & HQ
                                 & HB).
  exists Area, D, P, Q, B. repeat (split; [done|]).
  exact (fem_mass_from_geometric Sample.triangle_nodes Area
           Sample.triangle_faces_at_nodes [] Sample.triangle_edges
           Sample.triangle_faces_at_edges D P Q B HD HP HQ HB).
Defined.
